(** * tiny-calc: the range aggregation engine (range.ts, types.ts, nano/types.ts)

    A shallow embedding of the suspendable range fold ([runFunc]), of the
    built-in runners, of the cache keyed by operation and range geometry, of
    the Range capability table ([Readable] and [Reference]) and of
    [fromReference].

    Conventions of the embedding.
    - Row and column numbers are integer-valued JavaScript numbers; they are
      [Z] here, and [number_of_Z] turns one into a cell number.
    - The numbers held by cells are IEEE 754 doubles: Rocq's primitive
      [float], with the kernel's [+], [*], [/], [<?] and [=?].
    - A session has one evaluation context.  Its mutable parts (the cache and
      the Function Fibers reachable from it) and the host's [read] callback
      are the record [Store]; every operation passes the store explicitly.
    - Function Fibers are heap objects: [fibers] is the heap, an address is an
      index into it, and a [Pending] marker carries the address, so that two
      markers for one fiber alias the same object.
    - [visited] is a ghost log of the calls made to [context.read]. *)

From Stdlib Require Import ZArith Ascii String Floats Uint63 Lia.
From stdpp Require Import gmap strings list pretty.

Local Open Scope Z_scope.

(** ** types.ts *)

Definition Point : Type := Z * Z.

Record Reference := mkReference {
  row1 : Z;
  col1 : Z;
  row2 : option Z;
  col2 : option Z;
}.

(** A Range is its geometry: [serialise] and [typeMap] are the same two
    functions in every Range and are not fields here. *)
Record Range := mkRange {
  tlRow : Z;
  tlCol : Z;
  height : Z;
  width : Z;
}.

(** The objects and function values of the host, and the two error objects
    of [./core] ([errors.div0], [errors.unknownField]); [./core] is not among
    the sources, so they are parameters. *)
Class Host := {
  CalcObj : Type;
  CalcFun : Type;
  errors_div0 : CalcObj;
  errors_unknownField : CalcObj;
}.

Section Values.
Context {H : Host}.

(** [CalcValue<C> = Primitive | CalcObj<C> | CalcFun<C>]. *)
Inductive CalcValue :=
  | VNum (n : float)
  | VStr (s : string)
  | VBool (b : bool)
  | VObj (o : CalcObj)
  | VFun (f : CalcFun).

(** [Fiber<T> = FormulaCell | FunctionFiber<T>]; a formula cell is named by
    its position, a Function Fiber by its heap address. *)
Inductive Fiber :=
  | FormulaCell (row col : Z)
  | FunctionFiberAt (address : nat).

(** What [context.read] returns and what the cache holds:
    [CalcValue | PendingTask]. *)
Inductive Content :=
  | Value (v : CalcValue)
  | Pending (fiber : Fiber).

(** Modelled from the spec: [isPendingTask] of [./core] (not among the
    sources) distinguishes the Pending marker from ordinary values.  Where
    the code branches on [isPendingTask(content)], the embedding matches on
    [content]: [Pending _] is the branch taken, [Value v] the other one. *)
Definition isPendingTask (content : Content) : bool :=
  match content with
  | Pending _ => true
  | Value _ => false
  end.

(** [FunctionRunner<Accum, Res> = [Accum, (x) => void, (state) => Res]] with
    the accumulator type packed: slot 0 is [box], the step function of slot 1
    mutates slot 0 and is given here as the function from the old contents
    and the scanned value to the new contents. *)
Record FunctionRunner := mkRunner {
  Accum : Type;
  box : Accum;
  run : Accum → CalcValue → Accum;
  finish : Accum → CalcValue;
}.

Record FunctionFiber := mkFiber {
  state : string;
  range : Range;
  row : Z;
  column : Z;
  runner : FunctionRunner;
}.

Record Store := mkStore {
  read : Z → Z → Content;
  cache : gmap string Content;
  fibers : list FunctionFiber;
  visited : list Point;
}.

End Values.

(** What a property read comes to: a returned value or Pending marker, or
    the call of a member that an object literal inherits from
    [Object.prototype] (see [aggregations]). *)
Inductive ReadResult {H : Host} :=
  | Returned (content : Content)
  | ObjectPrototypeCall (name : string).

(** The Readable capability of the host's objects,
    [value.typeMap()[TypeName.Readable]]: absent, or a reader
    [read(value, property, context)]. *)
Class TypeMaps {H : Host} := {
  typeMap_Readable :
    CalcObj → option (CalcObj → string → Store → option (ReadResult * Store));
}.

Section Range.
Context {H : Host} {T : TypeMaps}.

(** ** range.ts *)

Definition makeCacheKey (range : Range) (prop : string) : string :=
  prop +:+ ";" +:+ pretty (tlRow range) +:+ ";" +:+ pretty (tlCol range)
       +:+ ";" +:+ pretty (height range) +:+ ";" +:+ pretty (width range).

Definition createRunner {A : Type}
    (initAccum : A → CalcValue → A) (finalise : A → CalcValue) (init : A) :
    FunctionRunner :=
  mkRunner A init initAccum finalise.

(** *** Store operations used by [runFunc] *)

(** [context.read(i, j)], logged. *)
Definition context_read (i j : Z) (σ : Store) : Content * Store :=
  (read σ i j, mkStore (read σ) (cache σ) (fibers σ) (visited σ ++ [(i, j)])).

(** [run(content)]: the step function mutates slot 0 of the fiber's runner. *)
Definition applyRun (r : FunctionRunner) (content : CalcValue) : FunctionRunner :=
  mkRunner (Accum r) (run r (box r) content) (run r) (finish r).

Definition set_runner (r : FunctionRunner) (f : FunctionFiber) : FunctionFiber :=
  mkFiber (state f) (range f) (row f) (column f) r.

Definition set_row (i : Z) (f : FunctionFiber) : FunctionFiber :=
  mkFiber (state f) (range f) i (column f) (runner f).

Definition set_column (j : Z) (f : FunctionFiber) : FunctionFiber :=
  mkFiber (state f) (range f) (row f) j (runner f).

Definition update_fiber (fiber : nat) (g : FunctionFiber → FunctionFiber)
    (σ : Store) : Store :=
  mkStore (read σ) (cache σ) (alter g fiber (fibers σ)) (visited σ).

Definition run_content (fiber : nat) (content : CalcValue) (σ : Store) : Store :=
  update_fiber fiber (λ f, set_runner (applyRun (runner f) content) f) σ.

(** [context.cache[key] = value]. *)
Definition cache_store (key : string) (value : Content) (σ : Store) : Store :=
  mkStore (read σ) (<[key := value]> (cache σ)) (fibers σ) (visited σ).

(** [return context.cache[key] = { kind: "Pending", fiber }]. *)
Definition suspend (fiber : nat) (key : string) (σ : Store) : Content * Store :=
  let pending := Pending (FunctionFiberAt fiber) in
  (pending, cache_store key pending σ).

(** *** runFunc *)

(** The first loop, [for (let j = column; j < endC; j += 1)], with [n] the
    number of iterations left, [endC - j].  [Some] is the early return. *)
Fixpoint finish_row (fiber : nat) (key : string) (row : Z) (n : nat) (j : Z)
    (σ : Store) : option Content * Store :=
  match n with
  | O => (None, σ)
  | S n' =>
      let '(content, σ1) := context_read row j σ in
      match content with
      | Pending _ =>
          let '(p, σ2) := suspend fiber key (update_fiber fiber (set_column j) σ1) in
          (Some p, σ2)
      | Value v => finish_row fiber key row n' (j + 1) (run_content fiber v σ1)
      end
  end.

(** The inner loop of the second nest, [for (let j = startCol; j < endC; j += 1)]. *)
Fixpoint scan_row (fiber : nat) (key : string) (i : Z) (n : nat) (j : Z)
    (σ : Store) : option Content * Store :=
  match n with
  | O => (None, σ)
  | S n' =>
      let '(content, σ1) := context_read i j σ in
      match content with
      | Pending _ =>
          let '(p, σ2) :=
            suspend fiber key
              (update_fiber fiber (set_column j) (update_fiber fiber (set_row i) σ1)) in
          (Some p, σ2)
      | Value v => scan_row fiber key i n' (j + 1) (run_content fiber v σ1)
      end
  end.

(** The outer loop, [for (let i = row + 1; i < endR; i += 1)], with [m] the
    number of iterations left, [endR - i]. *)
Fixpoint scan_rows (fiber : nat) (key : string) (startCol endC : Z) (m : nat)
    (i : Z) (σ : Store) : option Content * Store :=
  match m with
  | O => (None, σ)
  | S m' =>
      match scan_row fiber key i (Z.to_nat (endC - startCol)) startCol σ with
      | (Some p, σ1) => (Some p, σ1)
      | (None, σ1) => scan_rows fiber key startCol endC m' (i + 1) σ1
      end
  end.

(** [runFunc(fiber)].  [None] stands for an address that is not in the heap,
    which a JavaScript reference cannot be. *)
Definition runFunc (fiber : nat) (σ : Store) : option (Content * Store) :=
  match fibers σ !! fiber with
  | None => None
  | Some f =>
      let row := row f in
      let column := column f in
      let range := range f in
      let startCol := tlCol range in
      let endR := tlRow range + height range in
      let endC := tlCol range + width range in
      let key := makeCacheKey range (state f) in
      match finish_row fiber key row (Z.to_nat (endC - column)) column σ with
      | (Some p, σ1) => Some (p, σ1)
      | (None, σ1) =>
          match scan_rows fiber key startCol endC (Z.to_nat (endR - (row + 1))) (row + 1) σ1 with
          | (Some p, σ2) => Some (p, σ2)
          | (None, σ2) =>
              match fibers σ2 !! fiber with
              | None => None
              | Some f' =>
                  let result := Value (finish (runner f') (box (runner f'))) in
                  Some (result, cache_store key result σ2)
              end
          end
      end
  end.

End Range.

Section Aggregations.
Context {H : Host} {T : TypeMaps}.

Definition fromUndefined (result : option float) : float :=
  match result with
  | None => 0%float
  | Some result => result
  end.

(** The finishers [id] and [fromUndefined] return a number, which is a
    [CalcValue] by [VNum]. *)
Definition createSum : float → FunctionRunner :=
  createRunner
    (λ result n, match n with VNum n => (result + n)%float | _ => result end)
    (λ x, VNum (id x)).

Definition createProduct : float → FunctionRunner :=
  createRunner
    (λ result n, match n with VNum n => (result * n)%float | _ => result end)
    (λ x, VNum (id x)).

Definition createCount : float → FunctionRunner :=
  createRunner
    (λ result n, match n with VNum _ => (result + 1)%float | _ => result end)
    (λ x, VNum (id x)).

Definition finishAverage (value : float * float) : CalcValue :=
  let '(total, finalCount) := value in
  if (finalCount =? 0)%float then VObj errors_div0 else VNum (total / finalCount)%float.

Definition createAverage : float * float → FunctionRunner :=
  createRunner
    (λ result n,
       match n with
       | VNum n => ((result.1 + n)%float, (result.2 + 1)%float)
       | _ => result
       end)
    finishAverage.

(** [n > result[0]] is [result[0] < n]. *)
Definition createMax : option float → FunctionRunner :=
  createRunner
    (λ result n,
       match n with
       | VNum n =>
           if match result with None => true | Some r => (r <? n)%float end
           then Some n else result
       | _ => result
       end)
    (λ x, VNum (fromUndefined x)).

Definition createMin : option float → FunctionRunner :=
  createRunner
    (λ result n,
       match n with
       | VNum n =>
           if match result with None => true | Some r => (n <? r)%float end
           then Some n else result
       | _ => result
       end)
    (λ x, VNum (fromUndefined x)).

Definition createConcat : string → FunctionRunner :=
  createRunner
    (λ result s, match s with VStr s => result +:+ s | _ => result end)
    (λ x, VStr (id x)).

(** Modelled from the spec: [makePendingFunction] of [./core] (not among the
    sources) builds the Function Fiber {aggregation op, target range, cursor
    (row, column), accumulator state} from its arguments; the new object gets
    the next free address.  Its [context] argument is the session's store. *)
Definition makePendingFunction (name : string) (range : Range) (row column : Z)
    (runner : FunctionRunner) (σ : Store) : nat * Store :=
  (length (fibers σ),
   mkStore (read σ) (cache σ) (fibers σ ++ [mkFiber name range row column runner]) (visited σ)).

(** [runFunc(someTask || makePendingFunction(name, range, context, range.tlRow,
    range.tlCol, runner))]. *)
Definition aggregate (name : string) (runner : FunctionRunner) (range : Range)
    (someTask : option nat) (σ : Store) : option (Content * Store) :=
  match someTask with
  | Some task => runFunc task σ
  | None =>
      let '(task, σ1) :=
        makePendingFunction name range (tlRow range) (tlCol range) runner σ in
      runFunc task σ1
  end.

Definition RangeAggregation : Type :=
  Range → option nat → Store → option (Content * Store).

Definition rangeSum : RangeAggregation := aggregate "sum" (createSum 0).
Definition rangeProduct : RangeAggregation := aggregate "product" (createProduct 1).
Definition rangeCount : RangeAggregation := aggregate "count" (createCount 0).
Definition rangeAverage : RangeAggregation := aggregate "average" (createAverage (0, 0)%float).
Definition rangeMax : RangeAggregation := aggregate "max" (createMax None).
Definition rangeMin : RangeAggregation := aggregate "min" (createMin None).
Definition rangeConcat : RangeAggregation := aggregate "concat" (createConcat "").

(** The object literal [aggregations]: its own properties, in source order. *)
Definition aggregations_own : list (string * RangeAggregation) :=
  [ ("sum", rangeSum); ("product", rangeProduct); ("count", rangeCount);
    ("average", rangeAverage); ("max", rangeMax); ("min", rangeMin);
    ("concat", rangeConcat);
    ("SUM", rangeSum); ("PRODUCT", rangeProduct); ("COUNT", rangeCount);
    ("AVERAGE", rangeAverage); ("MAX", rangeMax); ("MIN", rangeMin);
    ("CONCAT", rangeConcat) ].

(** The runner a fresh fiber of each operation starts from: the last argument
    of [makePendingFunction] in [rangeSum] ... [rangeConcat]. *)
Definition initialRunner (name : string) : option FunctionRunner :=
  if String.eqb name "sum" then Some (createSum 0)
  else if String.eqb name "product" then Some (createProduct 1)
  else if String.eqb name "count" then Some (createCount 0)
  else if String.eqb name "average" then Some (createAverage (0, 0)%float)
  else if String.eqb name "max" then Some (createMax None)
  else if String.eqb name "min" then Some (createMin None)
  else if String.eqb name "concat" then Some (createConcat "")
  else None.

(** An object literal inherits from [Object.prototype]; these are the names
    a lookup [o[name]] finds there when [o] has no own property [name]. *)
Definition Object_prototype : list string :=
  [ "constructor"; "toString"; "toLocaleString"; "valueOf"; "hasOwnProperty";
    "isPrototypeOf"; "propertyIsEnumerable"; "__proto__"; "__defineGetter__";
    "__defineSetter__"; "__lookupGetter__"; "__lookupSetter__" ].

Fixpoint own_property {A : Type} (o : list (string * A)) (name : string) : option A :=
  match o with
  | [] => None
  | (k, v) :: o' => if String.eqb k name then Some v else own_property o' name
  end.

Inductive Property :=
  | Own (fn : RangeAggregation)
  | Inherited (name : string).

(** [aggregations[message]]; [None] is [undefined]. *)
Definition aggregations (message : string) : option Property :=
  match own_property aggregations_own message with
  | Some fn => Some (Own fn)
  | None =>
      if bool_decide (message ∈ Object_prototype) then Some (Inherited message)
      else None
  end.

(** An integer-valued number as a cell number (exact below 2^53). *)
Definition number_of_Z (z : Z) : float :=
  match z with
  | Z0 => 0%float
  | Zpos _ => PrimFloat.of_uint63 (Uint63.of_Z z)
  | Zneg p => (- PrimFloat.of_uint63 (Uint63.of_Z (Zpos p)))%float
  end.

(** A [CellValue] or Pending marker handed back as the result of a read. *)
Definition returned (x : option (Content * Store)) : option (ReadResult * Store) :=
  match x with
  | Some (content, σ) => Some (Returned content, σ)
  | None => None
  end.

(** [rangeTypeMap[TypeName.Readable].read].  A call of a member inherited
    from [Object.prototype] is recorded as [ObjectPrototypeCall]; what the
    member then does with the receiver is not modelled. *)
Definition Readable_read (receiver : Range) (message : string) (σ : Store) :
    option (ReadResult * Store) :=
  match aggregations message with
  | Some fn =>
      let key := makeCacheKey receiver message in
      match cache σ !! key with
      | Some value => Some (Returned value, σ)
      | None =>
          match fn with
          | Own fn => returned (fn receiver None σ)
          | Inherited name => Some (ObjectPrototypeCall name, σ)
          end
      end
  | None =>
      if String.eqb message "row" || String.eqb message "ROW" then
        Some (Returned (Value (VNum (number_of_Z (tlRow receiver + 1)))), σ)
      else if String.eqb message "column" || String.eqb message "COLUMN" then
        Some (Returned (Value (VNum (number_of_Z (tlCol receiver + 1)))), σ)
      else
        let '(value, σ1) := context_read (tlRow receiver) (tlCol receiver) σ in
        match value with
        | Pending _ => Some (Returned value, σ1)
        | Value (VObj o) =>
            match typeMap_Readable o with
            | Some reader => reader o message σ1
            | None => Some (Returned (Value (VObj errors_unknownField)), σ1)
            end
        | Value _ => Some (Returned (Value (VObj errors_unknownField)), σ1)
        end
  end.

(** [rangeTypeMap[TypeName.Reference].dereference]. *)
Definition Reference_dereference (value : Range) (σ : Store) : Content * Store :=
  context_read (tlRow value) (tlCol value) σ.

End Aggregations.

Definition fromReference (reference : Reference) : Range :=
  let row1 := row1 reference in
  let col1 := col1 reference in
  match row2 reference, col2 reference with
  | Some row2, Some col2 =>
      {| tlRow := if row1 <? row2 then row1 else row2;
         tlCol := if col1 <? col2 then col1 else col2;
         height := Z.abs (row1 - row2) + 1;
         width := Z.abs (col1 - col2) + 1 |}
  | _, _ =>
      {| tlRow := row1; tlCol := col1; height := 1; width := 1 |}
  end.

(** ** Row-major order, in the specification's words *)

Section RowMajor.
Context {H : Host}.

(** The cells of row [i] from column [from] up to, not including, [to]. *)
Definition rowCells (i from to : Z) : list Point :=
  (λ j, (i, j)) <$> seqZ from (to - from).

(** The cells a fiber with cursor [(row, column)] has not consumed: the rest
    of its row, then the full rows below, top to bottom, left to right. *)
Definition remainingCells (range : Range) (row column : Z) : list Point :=
  let endR := tlRow range + height range in
  let endC := tlCol range + width range in
  rowCells row column endC
    ++ (seqZ (row + 1) (endR - (row + 1)) ≫= λ i, rowCells i (tlCol range) endC).

Definition cellsOf (range : Range) : list Point :=
  remainingCells range (tlRow range) (tlCol range).

(** Fold a runner over a list of cells in order, stopping at the first cell
    whose read is Pending: the runner reached, the cells read (the blocking
    one included) and the blocking cell. *)
Fixpoint rowMajorScan (rd : Z → Z → Content) (cells : list Point)
    (r : FunctionRunner) : FunctionRunner * list Point * option Point :=
  match cells with
  | [] => (r, [], None)
  | (i, j) :: cells' =>
      match rd i j with
      | Pending _ => (r, [(i, j)], Some (i, j))
      | Value v =>
          let '(r', seen, blocked) := rowMajorScan rd cells' (applyRun r v) in
          (r', (i, j) :: seen, blocked)
      end
  end.

(** The runner after the values [vs] were fed to it in order. *)
Definition runAll (r : FunctionRunner) (vs : list CalcValue) : FunctionRunner :=
  foldl applyRun r vs.

Definition outcome (r : FunctionRunner) : CalcValue := finish r (box r).

(** The numbers, and the strings, among scanned values, in order. *)
Definition numbers (vs : list CalcValue) : list float :=
  omap (λ v, match v with VNum n => Some n | _ => None end) vs.

Definition strings (vs : list CalcValue) : list string :=
  omap (λ v, match v with VStr s => Some s | _ => None end) vs.

(** The step of max and of min on a number [n]: [n] is kept when none was
    seen yet or when [n] beats the number kept. *)
Definition keepBest (beats : float → float → bool) (result : option float)
    (n : float) : option float :=
  if match result with None => true | Some r => beats n r end
  then Some n else result.

(** Every cell of [cells] reads as a value, and [vs] are those values. *)
Definition resolved (rd : Z → Z → Content) (cells : list Point)
    (vs : list CalcValue) : Prop :=
  Forall2 (λ p v, rd p.1 p.2 = Value v) cells vs.

(** A fresh session over a sheet: empty cache, no fiber, nothing read. *)
Definition session (rd : Z → Z → Content) : Store := mkStore rd ∅ [] [].

(** The host replaces the sheet and keeps the session. *)
Definition with_sheet (rd : Z → Z → Content) (σ : Store) : Store :=
  mkStore rd (cache σ) (fibers σ) (visited σ).

(** The exit of a loop of [runFunc] over the cells a scan [s] stands for:
    fiber [a], which was [f], carries the runner reached and, when the scan
    blocked, the blocking cell as its cursor and the cache its marker. *)
Definition loop_exit (a : nat) (key : string) (f : FunctionFiber) (σ : Store)
    (s : FunctionRunner * list Point * option Point) : option Content * Store :=
  match s with
  | (r, seen, None) =>
      (None,
       mkStore (read σ) (cache σ) (<[a := set_runner r f]> (fibers σ)) (visited σ ++ seen))
  | (r, seen, Some (i, j)) =>
      (Some (Pending (FunctionFiberAt a)),
       mkStore (read σ) (<[key := Pending (FunctionFiberAt a)]> (cache σ))
         (<[a := mkFiber (state f) (range f) i j r]> (fibers σ)) (visited σ ++ seen))
  end.

(** What [runFunc] returns and leaves behind for such a scan. *)
Definition resumed (a : nat) (f : FunctionFiber) (σ : Store)
    (s : FunctionRunner * list Point * option Point) : Content * Store :=
  let key := makeCacheKey (range f) (state f) in
  match s with
  | (r, seen, None) =>
      (Value (outcome r),
       mkStore (read σ) (<[key := Value (outcome r)]> (cache σ))
         (<[a := set_runner r f]> (fibers σ)) (visited σ ++ seen))
  | (r, seen, Some (i, j)) =>
      (Pending (FunctionFiberAt a),
       mkStore (read σ) (<[key := Pending (FunctionFiberAt a)]> (cache σ))
         (<[a := mkFiber (state f) (range f) i j r]> (fibers σ)) (visited σ ++ seen))
  end.

(** Every Pending marker of a Function Fiber in the cache names a fiber of
    the heap, and that fiber's [state] and [range] rebuild the marker's key. *)
Definition cache_owns_fibers (σ : Store) : Prop :=
  ∀ (k : string) (a : nat),
    cache σ !! k = Some (Pending (FunctionFiberAt a)) →
    ∃ f, fibers σ !! a = Some f ∧ makeCacheKey (range f) (state f) = k.

End RowMajor.

(** ** Property names *)

(** The aggregation operation names ([FunctionTask]). *)
Definition operationNames : list string :=
  ["sum"; "product"; "count"; "average"; "max"; "min"; "concat"].

Definition lowerAscii (c : ascii) : ascii :=
  let n := nat_of_ascii c in
  if ((65 <=? n) && (n <=? 90))%nat then ascii_of_nat (n + 32) else c.

Definition upperAscii (c : ascii) : ascii :=
  let n := nat_of_ascii c in
  if ((97 <=? n) && (n <=? 122))%nat then ascii_of_nat (n - 32) else c.

Fixpoint mapString (f : ascii → ascii) (s : string) : string :=
  match s with
  | EmptyString => EmptyString
  | String c s' => String (f c) (mapString f s')
  end.

Definition toLowerCase : string → string := mapString lowerAscii.
Definition toUpperCase : string → string := mapString upperAscii.

(** [s] holds no separator [;]. *)
Fixpoint separator_free (s : string) : Prop :=
  match s with
  | EmptyString => True
  | String c s' => c ≠ ";"%char ∧ separator_free s'
  end.

(** ** Sessions in which no fiber is run *)

Section Sessions.
Context {H : Host} {T : TypeMaps}.

(** [quiet σ σ']: the session [σ'] comes from [σ] without the host running
    any fiber in between; it has only replaced the sheet and read
    aggregation properties written as operation names, on any ranges, any
    number of times. *)
Inductive quiet : Store → Store → Prop :=
  | quiet_refl σ : quiet σ σ
  | quiet_sheet σ σ' rd : quiet σ σ' → quiet σ (with_sheet rd σ')
  | quiet_read σ σ' σ'' range name result :
      quiet σ σ' → name ∈ operationNames →
      Readable_read range name σ' = Some (result, σ'') →
      quiet σ σ''.

End Sessions.

(** ** A concrete host and the sheet of the end-to-end example *)

Inductive ErrorObject := Div0 | UnknownField.

Definition exampleHost : Host :=
  {| CalcObj := ErrorObject; CalcFun := Empty_set;
     errors_div0 := Div0; errors_unknownField := UnknownField |}.

Definition exampleTypeMaps : @TypeMaps exampleHost :=
  {| typeMap_Readable := λ _, None |}.

Section Example.
#[local] Existing Instance exampleHost.
#[local] Existing Instance exampleTypeMaps.

(** A1:A3. *)
Definition A1A3 : Range := mkRange 0 0 3 1.

(** Column A holds 1, 2 and [third]; every other cell is the empty string. *)
Definition sheet (third : Content) : Z → Z → Content :=
  λ i j,
    match i, j with
    | 0, 0 => Value (VNum 1)
    | 1, 0 => Value (VNum 2)
    | 2, 0 => third
    | _, _ => Value (VStr "")
    end.

Definition sheetPending : Z → Z → Content := sheet (Pending (FormulaCell 2 0)).
Definition sheetResolved : Z → Z → Content := sheet (Value (VNum 3)).
Definition sheetEdited : Z → Z → Content := sheet (Value (VNum 4)).

(** The sum fiber of A1:A3 suspended on the third cell, and a session that
    holds it at address 0 once that cell reads 3. *)
Definition suspendedSum : FunctionFiber := mkFiber "sum" A1A3 2 0 (createSum 3).

Definition resumable : Store :=
  mkStore sheetResolved {[ "sum;0;0;3;1" := Pending (FunctionFiberAt 0) ]}
    [suspendedSum] [(0, 0); (1, 0); (2, 0)].

(** The session after a first request for the sum of A1:A3 on [sheetPending]. *)
Definition suspended : Store :=
  mkStore sheetPending {[ "sum;0;0;3;1" := Pending (FunctionFiberAt 0) ]}
    [suspendedSum] [(0, 0); (1, 0); (2, 0)].

(** The session after the sum of A1:A3 was computed on [sheetResolved]. *)
Definition finished : Store :=
  mkStore sheetResolved {[ "sum;0;0;3;1" := Value (VNum 6) ]}
    [mkFiber "sum" A1A3 0 0 (createSum 6)] [(0, 0); (1, 0); (2, 0)].

(** A session that holds a sum fiber of A1:A3 not yet run, at address 0. *)
Definition started : Store :=
  mkStore sheetPending ∅ [mkFiber "sum" A1A3 0 0 (createSum 0)] [].

(** Column A holds three numbers; every other cell is the empty string. *)
Definition columnA (first second third : float) : Z → Z → Content :=
  λ i j,
    match i, j with
    | 0, 0 => Value (VNum first)
    | 1, 0 => Value (VNum second)
    | 2, 0 => Value (VNum third)
    | _, _ => Value (VStr "")
    end.

(** Sheets whose column A holds a NaN, in the first cell and in the middle. *)
Definition sheetNaNFirst : Z → Z → Content := columnA nan 1 2.
Definition sheetNaNSecond : Z → Z → Content := columnA 5 nan 7.

(** [read] of the Range capability table on this host. *)
Definition exampleRead : Range → string → Store → option (ReadResult * Store) :=
  Readable_read.

End Example.

(** * experiments/tree: TreeShape (treeshape.ts)

    The tree of handles whose links live in one flat array, five slots per
    node.  Conventions of the embedding.
    - Nodes, locations and array indices are integer-valued JavaScript
      numbers: [Z].  A number read from the array, or computed from such a
      read, may fail to be one: [None] stands for [undefined], for [NaN] and
      for a non-integer quotient, which the code never tells apart
      ([undefined + k] and [NaN / 5] are [NaN], [-NaN] is [NaN], and [===],
      [!==] and [>] treat them alike against an integer).
    - The array [shape] is a map from keys to integers: a key is an integer
      index or, for [None], the property [NaN]; a slot that holds
      [undefined] is an absent key, since reads are all the code does with it.
    - [TreeNode.none] ([./types]) and the table of handles
      ([@tiny-calc/handletable]) are not among the sources: parameters.
    - The consumers ([./consumerset]) are not among the sources either: the
      calls [consumer.nodeMoved(node, oldLocation, this)] are kept as the
      log [moved], one entry per round of notification. *)

Module TreeShape.

Class Environment := {
  TreeNode_none : Z;
  HandleTable : Type;
  handles_new : HandleTable;
  handles_add : HandleTable → Z * HandleTable;
  handles_delete : Z → HandleTable → HandleTable;
}.

Inductive ShapeFieldOffset :=
  | parent
  | firstChild
  | nextSibling
  | lastChild
  | prevSibling.

Definition offset (field : ShapeFieldOffset) : Z :=
  match field with
  | parent => 0
  | firstChild => 1
  | nextSibling => 2
  | lastChild => 3
  | prevSibling => 4
  end.

Definition fieldCount : Z := 5.

Section Model.
Context {E : Environment}.

Definition TreeNodeIndex_none : Z := TreeNode_none * fieldCount.

Definition toIndex (node : Z) : Z := node * fieldCount.

(** [index / ShapeFieldOffset.fieldCount]. *)
Definition toNode (index : option Z) : option Z :=
  match index with
  | Some index =>
      if decide (index `mod` fieldCount = 0) then Some (index / fieldCount) else None
  | None => None
  end.

Record Tree := mkTree {
  shape : gmap (option Z) Z;
  handles : HandleTable;
  moved : list (Z * option Z);
}.

(** [new TreeShape()]: the five slots of the root. *)
Definition empty : Tree :=
  mkTree
    (list_to_map
       [ (Some 0, TreeNodeIndex_none); (Some 1, TreeNodeIndex_none);
         (Some 2, TreeNodeIndex_none); (Some 3, TreeNodeIndex_none);
         (Some 4, TreeNodeIndex_none) ])
    handles_new [].

(** [this.shape[node + field]]. *)
Definition getIndex (field : ShapeFieldOffset) (node : option Z)
    (s : gmap (option Z) Z) : option Z :=
  s !! ((λ node, node + offset field) <$> node).

(** [this.shape[node + field] = value]. *)
Definition setIndex (field : ShapeFieldOffset) (node value : option Z)
    (s : gmap (option Z) Z) : gmap (option Z) Z :=
  let key := (λ node, node + offset field) <$> node in
  match value with
  | Some value => <[key := value]> s
  | None => delete key s
  end.

Definition getParentIndex := getIndex parent.
Definition getFirstChildIndex := getIndex firstChild.
Definition getLastChildIndex := getIndex lastChild.
Definition getNextSiblingIndex := getIndex nextSibling.
Definition getPrevSiblingIndex := getIndex prevSibling.

Definition setParentIndex := setIndex parent.
Definition setFirstChildIndex := setIndex firstChild.
Definition setLastChildIndex := setIndex lastChild.
Definition setPrevSiblingIndex := setIndex prevSibling.
Definition setNextSiblingIndex := setIndex nextSibling.

(** *** ITreeShapeReader *)

Definition getParent (node : Z) (t : Tree) : option Z :=
  toNode (getParentIndex (Some (toIndex node)) (shape t)).
Definition getFirstChild (node : Z) (t : Tree) : option Z :=
  toNode (getFirstChildIndex (Some (toIndex node)) (shape t)).
Definition getLastChild (node : Z) (t : Tree) : option Z :=
  toNode (getLastChildIndex (Some (toIndex node)) (shape t)).
Definition getNextSibling (node : Z) (t : Tree) : option Z :=
  toNode (getNextSiblingIndex (Some (toIndex node)) (shape t)).
Definition getPrevSibling (node : Z) (t : Tree) : option Z :=
  toNode (getPrevSiblingIndex (Some (toIndex node)) (shape t)).

Definition afterNode (node : option Z) : option Z := node.

Definition firstChildOf (parent : option Z) : option Z := Z.opp <$> parent.

Definition beforeNode (node : Z) (t : Tree) : option Z :=
  let prev := getPrevSibling node t in
  if decide (prev = Some TreeNode_none)
  then firstChildOf (getParent node t)
  else afterNode prev.

Definition lastChildOf (parent : Z) (t : Tree) : option Z :=
  let oldLast := getLastChild parent t in
  if decide (oldLast = Some TreeNode_none)
  then firstChildOf (Some parent)
  else oldLast.

Definition parentOfLocation (location : Z) (t : Tree) : option Z :=
  if decide (0 < location) then getParent location t else Some (- location).

(** *** Linking and unlinking *)

Definition unlink (node : Z) (s : gmap (option Z) Z) : option Z * gmap (option Z) Z :=
  let oldParent := getParentIndex (Some node) s in
  let oldNext := getNextSiblingIndex (Some node) s in
  let oldPrev := getPrevSiblingIndex (Some node) s in
  let s1 :=
    if decide (getFirstChildIndex oldParent s = Some node)
    then setFirstChildIndex oldParent oldNext s else s in
  let s2 :=
    if decide (getLastChildIndex oldParent s1 = Some node)
    then setLastChildIndex oldParent oldPrev s1 else s1 in
  let s3 :=
    if decide (oldNext ≠ Some TreeNodeIndex_none)
    then setPrevSiblingIndex oldNext oldPrev s2 else s2 in
  if decide (oldPrev = Some TreeNodeIndex_none)
  then (firstChildOf (toNode oldParent), s3)
  else (toNode oldPrev, setNextSiblingIndex oldPrev oldNext s3).

Definition linkAfter (node prev : Z) (s : gmap (option Z) Z) : gmap (option Z) Z :=
  let newParent := getParentIndex (Some prev) s in
  let s1 := setParentIndex (Some node) newParent s in
  let s2 :=
    if decide (getLastChildIndex newParent s1 = Some prev)
    then setLastChildIndex newParent (Some node) s1 else s1 in
  let next := getNextSiblingIndex (Some prev) s2 in
  let s3 := setNextSiblingIndex (Some node) next s2 in
  let s4 :=
    if decide (next ≠ Some TreeNodeIndex_none)
    then setPrevSiblingIndex next (Some node) s3 else s3 in
  let s5 := setPrevSiblingIndex (Some node) (Some prev) s4 in
  setNextSiblingIndex (Some prev) (Some node) s5.

Definition linkFirstChild (node parent_ : Z) (s : gmap (option Z) Z) :
    gmap (option Z) Z :=
  let s1 := setParentIndex (Some node) (Some parent_) s in
  let next := getFirstChildIndex (Some parent_) s1 in
  let s2 :=
    if decide (next = Some TreeNodeIndex_none)
    then setLastChildIndex (Some parent_) (Some node) s1
    else setPrevSiblingIndex next (Some node) s1 in
  let s3 := setPrevSiblingIndex (Some node) (Some TreeNodeIndex_none) s2 in
  let s4 := setNextSiblingIndex (Some node) next s3 in
  setFirstChildIndex (Some parent_) (Some node) s4.

(** *** ITreeShapeWriter and ITreeShapeProducer *)

Definition moveNode (node location : Z) (t : Tree) : Tree :=
  let index := toIndex node in
  let '(oldLocation, s1) := unlink index (shape t) in
  let s2 :=
    if decide (0 < location)
    then linkAfter index (toIndex location) s1
    else linkFirstChild index (toIndex (- location)) s1 in
  mkTree s2 (handles t) (moved t ++ [(node, oldLocation)]).

Definition removeNode (node : Z) (t : Tree) : Tree :=
  let index := toIndex node in
  let '(oldLocation, s1) := unlink index (shape t) in
  let s2 := setParentIndex (Some index) (Some TreeNodeIndex_none) s1 in
  let s3 := setNextSiblingIndex (Some index) (Some TreeNodeIndex_none) s2 in
  let s4 := setPrevSiblingIndex (Some index) (Some TreeNodeIndex_none) s3 in
  mkTree s4 (handles t) (moved t ++ [(node, oldLocation)]).

Definition createNode (t : Tree) : Z * Tree :=
  let '(node, handles') := handles_add (handles t) in
  let index := toIndex node in
  let s1 := setParentIndex (Some index) (Some TreeNodeIndex_none) (shape t) in
  let s2 := setFirstChildIndex (Some index) (Some TreeNodeIndex_none) s1 in
  let s3 := setNextSiblingIndex (Some index) (Some TreeNodeIndex_none) s2 in
  let s4 := setLastChildIndex (Some index) (Some TreeNodeIndex_none) s3 in
  let s5 := setPrevSiblingIndex (Some index) (Some TreeNodeIndex_none) s4 in
  (node, mkTree s5 handles' (moved t)).

Definition deleteNode (node : Z) (t : Tree) : Tree :=
  let t1 := removeNode node t in
  mkTree (shape t1) (handles_delete node (handles t1)) (moved t1).

(** Every index stored in [shape] is a node times [fieldCount]. *)
Definition aligned (s : gmap (option Z) Z) : Prop :=
  ∀ k v, s !! k = Some v → v `mod` fieldCount = 0.

(** An index read from the array or made by [toIndex]: a node times
    [fieldCount], or nothing. *)
Definition alignedIndex (index : option Z) : Prop :=
  ∀ z, index = Some z → z `mod` fieldCount = 0.

(** The links around [node] agree with one another: the node has a parent
    [q], a previous sibling [p] and a next sibling [n] (each possibly
    [TreeNode.none]); it is the first child of [q] exactly when it has no
    previous sibling and the last child exactly when it has no next one; a
    previous sibling is a positive node with the same parent that points
    forward to the node and is not the last child; a next sibling points back
    to the node; and [q] is not negative, so that [firstChildOf] of it is
    not read as a location after a node. *)
Definition linked (node : Z) (t : Tree) : Prop :=
  ∃ q p n,
    getParent node t = Some q
    ∧ getPrevSibling node t = Some p
    ∧ getNextSibling node t = Some n
    ∧ (if decide (p = TreeNode_none)
       then getFirstChild q t = Some node ∧ 0 ≤ q
       else getNextSibling p t = Some node ∧ getParent p t = Some q ∧ 0 < p
            ∧ getFirstChild q t ≠ Some node ∧ getLastChild q t ≠ Some p)
    ∧ (if decide (n = TreeNode_none)
       then getLastChild q t = Some node
       else getPrevSibling n t = Some node ∧ getLastChild q t ≠ Some node).

(** The trees a client can build: a new [TreeShape] and what the public
    methods that write make of it. *)
Inductive reachable : Tree → Prop :=
  | reachable_empty : reachable empty
  | reachable_createNode t : reachable t → reachable (createNode t).2
  | reachable_deleteNode node t : reachable t → reachable (deleteNode node t)
  | reachable_moveNode node location t :
      reachable t → reachable (moveNode node location t)
  | reachable_removeNode node t : reachable t → reachable (removeNode node t).

End Model.

(** A table that hands out 1, 2, 3, ... with [TreeNode.none] being 0, for
    the examples. *)
Definition exampleEnvironment : Environment :=
  {| TreeNode_none := 0; HandleTable := Z; handles_new := 0;
     handles_add := λ h, (h + 1, h + 1); handles_delete := λ _ h, h |}.

(** Three nodes made on that table: 1 and 2 are the children of the root,
    in this order, and 3 is still detached. *)
Definition family : Tree (E := exampleEnvironment) :=
  let t1 := (createNode (E := exampleEnvironment) empty).2 in
  let t2 := (createNode (E := exampleEnvironment) t1).2 in
  let t3 := (createNode (E := exampleEnvironment) t2).2 in
  moveNode (E := exampleEnvironment) 2 1 (moveNode (E := exampleEnvironment) 1 0 t3).

End TreeShape.

(** * Properties *)

(** ** The loops of [runFunc] scan in row-major order *)

Section Scan.
Context {H : Host}.

Lemma alter_lookup {A : Type} (g : A → A) (a : nat) (l : list A) (x : A) :
  l !! a = Some x → alter g a l = <[a := g x]> l.
Proof.
  revert a. induction l as [|y l IH]; intros [|a] Hx; simplify_eq/=; try done.
  f_equal. by apply IH.
Qed.

Lemma seqZ_of_to_nat (m n : Z) : seqZ m (Z.of_nat (Z.to_nat n)) = seqZ m n.
Proof. unfold seqZ. by rewrite Nat2Z.id. Qed.

Lemma seqZ_succ (m : Z) (n : nat) :
  seqZ m (Z.of_nat (S n)) = m :: seqZ (m + 1) (Z.of_nat n).
Proof.
  rewrite seqZ_cons by lia. f_equal. f_equal; lia.
Qed.

Lemma store_eta (σ : Store) :
  mkStore (read σ) (cache σ) (fibers σ) (visited σ) = σ.
Proof. by destruct σ. Qed.

Lemma fiber_eta (f : FunctionFiber) :
  mkFiber (state f) (range f) (row f) (column f) (runner f) = f.
Proof. by destruct f. Qed.

Lemma rowMajorScan_app (rd : Z → Z → Content) (l1 l2 : list Point)
    (r : FunctionRunner) :
  rowMajorScan rd (l1 ++ l2) r =
    match rowMajorScan rd l1 r with
    | (r1, seen1, None) =>
        let '(r2, seen2, blocked) := rowMajorScan rd l2 r1 in
        (r2, seen1 ++ seen2, blocked)
    | blocked => blocked
    end.
Proof.
  revert r. induction l1 as [|[i j] l1 IH]; intros r; simpl.
  - by destruct (rowMajorScan rd l2 r) as [[??]?].
  - destruct (rd i j); [|done]. rewrite IH.
    destruct (rowMajorScan rd l1 _) as [[r1 seen1] [?|]]; [done|].
    by destruct (rowMajorScan rd l2 r1) as [[??]?].
Qed.

Lemma rowMajorScan_resolved (rd : Z → Z → Content) (cells : list Point)
    (vs : list CalcValue) (r : FunctionRunner) :
  resolved rd cells vs → rowMajorScan rd cells r = (runAll r vs, cells, None).
Proof.
  intros Hres. revert r.
  induction Hres as [|[i j] v cells vs Hv _ IH]; intros r; simpl; [done|].
  simpl in Hv. by rewrite Hv, IH.
Qed.

Lemma rowMajorScan_blocked (rd : Z → Z → Content) (before after : list Point)
    (i j : Z) (fb : Fiber) (vs : list CalcValue) (r : FunctionRunner) :
  resolved rd before vs → rd i j = Pending fb →
  rowMajorScan rd (before ++ (i, j) :: after) r
    = (runAll r vs, before ++ [(i, j)], Some (i, j)).
Proof.
  intros Hres Hp. rewrite rowMajorScan_app, (rowMajorScan_resolved _ _ vs) by done.
  simpl. by rewrite Hp.
Qed.

End Scan.

Section RunFunc.
Context {H : Host}.

(** One iteration that read a value: the step function has run on fiber [a]. *)
Lemma run_content_fibers (a : nat) (v : CalcValue) (σ : Store) (f : FunctionFiber) :
  fibers σ !! a = Some f →
  fibers (run_content a v σ) = <[a := set_runner (applyRun (runner f) v) f]> (fibers σ).
Proof. intros Hf. simpl. by rewrite (alter_lookup _ _ _ f). Qed.

Lemma lookup_insert_fiber (a : nat) (l : list FunctionFiber) (f g : FunctionFiber) :
  l !! a = Some f → <[a := g]> l !! a = Some g.
Proof. intros Hf. apply list_lookup_insert_eq. by eapply lookup_lt_Some. Qed.


Lemma set_runner_id (f : FunctionFiber) : set_runner (runner f) f = f.
Proof. by destruct f. Qed.

Lemma loop_exit_step (a : nat) (key : string) (f : FunctionFiber) (σ : Store)
    (v : CalcValue) (p : Point) (s : FunctionRunner * list Point * option Point) :
  fibers σ !! a = Some f →
  loop_exit a key (set_runner (applyRun (runner f) v) f)
    (run_content a v (mkStore (read σ) (cache σ) (fibers σ) (visited σ ++ [p]))) s
  = loop_exit a key f σ (let '(r', seen, blocked) := s in (r', p :: seen, blocked)).
Proof.
  intros Hf. destruct s as [[r seen] [[i' j']|]]; simpl;
    erewrite alter_lookup by done;
    by rewrite list_insert_insert_eq, <- app_assoc.
Qed.

Lemma finish_row_scan (a : nat) (key : string) (n : nat) :
  ∀ (j : Z) (σ : Store) (f : FunctionFiber),
    fibers σ !! a = Some f →
    finish_row a key (row f) n j σ
      = loop_exit a key f σ
          (rowMajorScan (read σ) ((λ j, (row f, j)) <$> seqZ j (Z.of_nat n)) (runner f)).
Proof.
  induction n as [|n IH]; intros j σ f Hf.
  - simpl. by rewrite set_runner_id, list_insert_id, app_nil_r, store_eta.
  - rewrite seqZ_succ, fmap_cons.
    cbn [finish_row rowMajorScan context_read].
    destruct (read σ (row f) j) as [v|fb] eqn:Hrd.
    + rewrite <- (loop_exit_step a key f σ v (row f, j)) by done.
      set (σ1 := mkStore (read σ) (cache σ) (fibers σ) (visited σ ++ [(row f, j)])).
      apply (IH (j + 1) (run_content a v σ1) (set_runner (applyRun (runner f) v) f)).
      rewrite (run_content_fibers _ _ _ f) by done.
      by eapply lookup_insert_fiber.
    + unfold suspend, cache_store, update_fiber; simpl.
      by rewrite (alter_lookup _ _ _ f) by done.
Qed.

Lemma scan_row_scan (a : nat) (key : string) (i : Z) (n : nat) :
  ∀ (j : Z) (σ : Store) (f : FunctionFiber),
    fibers σ !! a = Some f →
    scan_row a key i n j σ
      = loop_exit a key f σ
          (rowMajorScan (read σ) ((λ j, (i, j)) <$> seqZ j (Z.of_nat n)) (runner f)).
Proof.
  induction n as [|n IH]; intros j σ f Hf.
  - simpl. by rewrite set_runner_id, list_insert_id, app_nil_r, store_eta.
  - rewrite seqZ_succ, fmap_cons.
    cbn [scan_row rowMajorScan context_read].
    destruct (read σ i j) as [v|fb] eqn:Hrd.
    + rewrite <- (loop_exit_step a key f σ v (i, j)) by done.
      set (σ1 := mkStore (read σ) (cache σ) (fibers σ) (visited σ ++ [(i, j)])).
      apply (IH (j + 1) (run_content a v σ1) (set_runner (applyRun (runner f) v) f)).
      rewrite (run_content_fibers _ _ _ f) by done.
      by eapply lookup_insert_fiber.
    + unfold suspend, cache_store, update_fiber; simpl.
      rewrite (alter_lookup _ _ (fibers σ) f) by done.
      rewrite (alter_lookup _ _ _ (set_row i f)) by (by eapply lookup_insert_fiber).
      by rewrite list_insert_insert_eq.
Qed.

Lemma loop_exit_seq (a : nat) (key : string) (f : FunctionFiber) (σ : Store)
    (r1 : FunctionRunner) (seen1 : list Point)
    (s : FunctionRunner * list Point * option Point) :
  loop_exit a key (set_runner r1 f)
    (mkStore (read σ) (cache σ) (<[a := set_runner r1 f]> (fibers σ)) (visited σ ++ seen1)) s
  = loop_exit a key f σ (let '(r2, seen2, blocked) := s in (r2, seen1 ++ seen2, blocked)).
Proof.
  destruct s as [[r seen] [[i' j']|]]; simpl;
    by rewrite list_insert_insert_eq, <- app_assoc.
Qed.

Lemma scan_rows_scan (a : nat) (key : string) (startCol endC : Z) (m : nat) :
  ∀ (i : Z) (σ : Store) (f : FunctionFiber),
    fibers σ !! a = Some f →
    scan_rows a key startCol endC m i σ
      = loop_exit a key f σ
          (rowMajorScan (read σ)
             (seqZ i (Z.of_nat m) ≫= λ i, rowCells i startCol endC) (runner f)).
Proof.
  induction m as [|m IH]; intros i σ f Hf.
  - simpl. by rewrite set_runner_id, list_insert_id, app_nil_r, store_eta.
  - rewrite seqZ_succ, bind_cons, rowMajorScan_app.
    cbn [scan_rows]. rewrite (scan_row_scan _ _ _ _ _ _ f), seqZ_of_to_nat by done.
    fold (rowCells i startCol endC).
    destruct (rowMajorScan (read σ) (rowCells i startCol endC) (runner f))
      as [[r1 seen1] [[i' j']|]]; [done|].
    cbn [loop_exit]. rewrite <- (loop_exit_seq a key f σ r1 seen1).
    apply (IH (i + 1) (mkStore _ _ _ _) (set_runner r1 f)).
    by eapply lookup_insert_fiber.
Qed.

(** [runFunc] on fiber [a] is the row-major scan of the cells the fiber has
    not consumed, from its saved cursor. *)
Lemma runFunc_scan (a : nat) (σ : Store) (f : FunctionFiber) :
  fibers σ !! a = Some f →
  runFunc a σ
    = Some (resumed a f σ
              (rowMajorScan (read σ)
                 (remainingCells (range f) (row f) (column f)) (runner f))).
Proof.
  intros Hf. unfold runFunc, remainingCells. rewrite Hf. cbv zeta.
  rewrite rowMajorScan_app.
  rewrite (finish_row_scan _ _ _ _ _ f), seqZ_of_to_nat by done.
  fold (rowCells (row f) (column f) (tlCol (range f) + width (range f))).
  destruct (rowMajorScan (read σ) (rowCells _ _ _) (runner f))
    as [[r1 seen1] [[i' j']|]]; [reflexivity|].
  cbn [loop_exit].
  rewrite (scan_rows_scan _ _ _ _ _ _ _ (set_runner r1 f)), seqZ_of_to_nat
    by (by eapply lookup_insert_fiber).
  rewrite loop_exit_seq. cbn [read runner set_runner].
  destruct (rowMajorScan (read σ) (_ ≫= _) r1) as [[r2 seen2] [[i' j']|]];
    [reflexivity|].
  cbn [loop_exit fibers]. erewrite lookup_insert_fiber by done.
  reflexivity.
Qed.
End RunFunc.

(** ** Fresh fibers and complete scans *)

Section Fresh.
Context {H : Host}.

Lemma NoDup_rowCells (i from to : Z) : NoDup (rowCells i from to).
Proof.
  unfold rowCells. apply NoDup_fmap_2; [|apply NoDup_seqZ].
  intros j1 j2 Heq. by simplify_eq.
Qed.

Lemma elem_of_rowCells (p : Point) (i from to : Z) :
  p ∈ rowCells i from to → p.1 = i.
Proof.
  unfold rowCells. intros Hp. apply list_elem_of_fmap in Hp as (j & -> & _). done.
Qed.

Lemma NoDup_remainingCells (range : Range) (row column : Z) :
  NoDup (remainingCells range row column).
Proof.
  unfold remainingCells. apply NoDup_app. split_and!.
  - apply NoDup_rowCells.
  - intros p Hp Hq. apply elem_of_rowCells in Hp.
    apply list_elem_of_bind in Hq as (i & Hq & Hi).
    apply elem_of_rowCells in Hq. apply elem_of_seqZ in Hi. lia.
  - apply NoDup_bind; [|intros; apply NoDup_rowCells|apply NoDup_seqZ].
    intros i1 i2 p _ _ H1 H2.
    apply elem_of_rowCells in H1, H2. congruence.
Qed.

Lemma remainingCells_cursor (range : Range) (row column : Z) :
  column < tlCol range + width range →
  ∃ rest, remainingCells range row column = (row, column) :: rest.
Proof.
  intros Hc. unfold remainingCells, rowCells.
  rewrite seqZ_cons by lia. simpl. eauto.
Qed.

(** A request without a task runs a new fiber, at the next free address,
    from the top-left cell. *)
Lemma aggregate_fresh (name : string) (r : FunctionRunner) (range : Range)
    (σ : Store) :
  let a := length (fibers σ) in
  let f := mkFiber name range (tlRow range) (tlCol range) r in
  aggregate name r range None σ
    = Some (resumed a f
              (mkStore (read σ) (cache σ) (fibers σ ++ [f]) (visited σ))
              (rowMajorScan (read σ) (cellsOf range) r)).
Proof.
  intros a f. unfold aggregate, makePendingFunction.
  rewrite (runFunc_scan _ _ f); [done|].
  simpl. by apply list_lookup_middle.
Qed.

End Fresh.

(** ** C2: resuming a Function Fiber *)

(** C2 (resume correctness).  For every Function Fiber [f] at address [a],
    [runFunc] returns, and it reads exactly the cells the fiber has not
    consumed, in row-major order from the saved cursor [(row f, column f)]:
    the rest of that row, then the full rows below; no cell is read twice.
    If the first Pending read is at [(i, j)], the cells before it were fed to
    the runner, [(i, j)] is the last cell read, the fiber's cursor becomes
    [(i, j)], the cache holds the Pending marker of this same fiber under the
    key of [state f] and [range f], and that marker is returned.  If every
    cell reads as a value, the finisher's result is stored under that key
    and returned.  In the sheet A1:A3 = 1, 2, Pending the sum first returns
    Pending with the cursor on the third cell and the runner at 3; once the
    cell reads 3, resuming the fiber returns 6, stored under "sum;0;0;3;1". *)
Theorem C2_resume_correctness :
  (∀ (H : Host) (a : nat) (σ : Store) (f : FunctionFiber),
     fibers σ !! a = Some f →
     let cells := remainingCells (range f) (row f) (column f) in
     let key := makeCacheKey (range f) (state f) in
     is_Some (runFunc a σ)
     ∧ NoDup cells
     ∧ (column f < tlCol (range f) + width (range f) →
        ∃ rest, cells = (row f, column f) :: rest)
     ∧ (∀ before i j after fb vs,
          cells = before ++ (i, j) :: after →
          resolved (read σ) before vs →
          read σ i j = Pending fb →
          runFunc a σ
            = Some (Pending (FunctionFiberAt a),
                    mkStore (read σ)
                      (<[key := Pending (FunctionFiberAt a)]> (cache σ))
                      (<[a := mkFiber (state f) (range f) i j (runAll (runner f) vs)]>
                         (fibers σ))
                      (visited σ ++ before ++ [(i, j)])))
     ∧ (∀ vs,
          resolved (read σ) cells vs →
          let result := Value (outcome (runAll (runner f) vs)) in
          runFunc a σ
            = Some (result,
                    mkStore (read σ) (<[key := result]> (cache σ))
                      (<[a := set_runner (runAll (runner f) vs) f]> (fibers σ))
                      (visited σ ++ cells))))
  ∧ (∃ σ1 σ2 : @Store exampleHost,
       rangeSum A1A3 None (session sheetPending)
         = Some (Pending (FunctionFiberAt 0), σ1)
       ∧ fibers σ1 = [mkFiber "sum" A1A3 2 0 (createSum 3)]
       ∧ visited σ1 = [(0, 0); (1, 0); (2, 0)]
       ∧ cache σ1 !! "sum;0;0;3;1" = Some (Pending (FunctionFiberAt 0))
       ∧ runFunc 0 (with_sheet sheetResolved σ1) = Some (Value (VNum 6), σ2)
       ∧ visited σ2 = [(0, 0); (1, 0); (2, 0); (2, 0)]
       ∧ cache σ2 = {[ "sum;0;0;3;1" := Value (VNum 6) ]}).
Proof.
  split.
  - intros H a σ f Hf cells key. split_and!.
    + rewrite (runFunc_scan _ _ f) by done. eauto.
    + apply NoDup_remainingCells.
    + apply remainingCells_cursor.
    + intros before i j after fb vs Hcells Hres Hp.
      rewrite (runFunc_scan _ _ f) by done. fold cells. rewrite Hcells.
      by rewrite (rowMajorScan_blocked _ _ _ _ _ fb vs).
    + intros vs Hres result.
      rewrite (runFunc_scan _ _ f) by done. fold cells.
      by rewrite (rowMajorScan_resolved _ _ vs).
  - eexists _, _. split_and!.
    + vm_compute. reflexivity.
    + reflexivity.
    + reflexivity.
    + vm_compute. reflexivity.
    + vm_compute. reflexivity.
    + reflexivity.
    + vm_compute. reflexivity.
Qed.

Lemma C2_resume_correctness_witness :
  fibers resumable !! 0%nat = Some suspendedSum
  ∧ runFunc 0 resumable
      = Some (Value (VNum 6),
              mkStore sheetResolved {[ "sum;0;0;3;1" := Value (VNum 6) ]}
                [mkFiber "sum" A1A3 2 0 (createSum 6)]
                [(0, 0); (1, 0); (2, 0); (2, 0)]).
Proof.
  split; [reflexivity|].
  destruct (proj1 C2_resume_correctness exampleHost 0%nat resumable suspendedSum eq_refl)
    as (_ & _ & _ & _ & Hdone).
  rewrite (Hdone [VNum 3]).
  - vm_compute. reflexivity.
  - repeat constructor.
Defined.

(** ** The aggregation properties of a Range and the cache *)

Section Cache.
Context {H : Host} {T : TypeMaps}.

(** The lower-case name and its upper-case alias select the same function,
    whose fibers carry the lower-case name as their [state]. *)
Lemma aggregations_operation (name : string) :
  name ∈ operationNames →
  ∃ r : FunctionRunner,
    initialRunner name = Some r
    ∧ aggregations name = Some (Own (aggregate name r))
    ∧ aggregations (toUpperCase name) = Some (Own (aggregate name r)).
Proof.
  unfold operationNames. rewrite !elem_of_cons, elem_of_nil.
  intros [->|[->|[->|[->|[->|[->|[->|[]]]]]]]]; eexists; split_and!; reflexivity.
Qed.

Lemma initialRunner_operation (name : string) (r : FunctionRunner) :
  initialRunner name = Some r → name ∈ operationNames.
Proof.
  unfold initialRunner, operationNames.
  repeat match goal with
    | |- context [String.eqb name ?s] =>
        destruct (String.eqb_spec name s) as [->|_];
        [intros _; rewrite !elem_of_cons; tauto|]
    end.
  done.
Qed.

Lemma read_aggregation (receiver : Range) (message : string) (σ : Store)
    (fn : RangeAggregation) :
  aggregations message = Some (Own fn) →
  Readable_read receiver message σ
    = match cache σ !! makeCacheKey receiver message with
      | Some value => Some (Returned value, σ)
      | None => returned (fn receiver None σ)
      end.
Proof. intros Hfn. unfold Readable_read. by rewrite Hfn. Qed.

(** A request that finds no cache entry leaves one under the key of the
    fiber's [state]: the Pending marker of the new fiber, or the result. *)
Lemma aggregate_fresh_cache (name : string) (r : FunctionRunner) (range : Range)
    (σ σ' : Store) (content : Content) :
  aggregate name r range None σ = Some (content, σ') →
  cache σ' = <[makeCacheKey range name := content]> (cache σ).
Proof.
  rewrite aggregate_fresh.
  destruct (rowMajorScan _ _ _) as [[r' seen] [[i j]|]]; simpl; by intros [= <- <-].
Qed.

(** What a read of a property written as an operation name returns is in
    the cache afterwards, under the key of that property and range. *)
Lemma read_answer_cached (range : Range) (name : string) (σ σ' : Store)
    (content : Content) :
  name ∈ operationNames →
  Readable_read range name σ = Some (Returned content, σ') →
  cache σ' !! makeCacheKey range name = Some content.
Proof.
  intros Hname Hread.
  destruct (aggregations_operation name Hname) as (r & _ & Hfn & _).
  rewrite (read_aggregation _ _ _ _ Hfn) in Hread.
  destruct (cache σ !! makeCacheKey range name) as [value|] eqn:Hc.
  - by simplify_eq.
  - destruct (aggregate name r range None σ) as [[c σ'']|] eqn:Hrun; simplify_eq/=.
    apply aggregate_fresh_cache in Hrun. by rewrite Hrun, lookup_insert_eq.
Qed.

(** Such a read replaces no entry of the cache. *)
Lemma read_keeps_entries (range : Range) (name : string) (σ σ' : Store)
    (result : ReadResult) (k : string) (content : Content) :
  name ∈ operationNames →
  Readable_read range name σ = Some (result, σ') →
  cache σ !! k = Some content →
  cache σ' !! k = Some content.
Proof.
  intros Hname Hread Hk.
  destruct (aggregations_operation name Hname) as (r & _ & Hfn & _).
  rewrite (read_aggregation _ _ _ _ Hfn) in Hread.
  destruct (cache σ !! makeCacheKey range name) as [value|] eqn:Hc.
  - by simplify_eq.
  - destruct (aggregate name r range None σ) as [[c σ'']|] eqn:Hrun; simplify_eq/=.
    apply aggregate_fresh_cache in Hrun. rewrite Hrun.
    rewrite lookup_insert_ne; [done|]. intros Heq. rewrite Heq in Hc. congruence.
Qed.

Lemma quiet_keeps_entries (σ σ' : Store) (k : string) (content : Content) :
  quiet σ σ' →
  cache σ !! k = Some content →
  cache σ' !! k = Some content.
Proof.
  intros Hquiet Hk.
  induction Hquiet as [σ|σ σ' rd _ IH|σ σ' σ'' range name result _ IH Hname Hread].
  - done.
  - exact (IH Hk).
  - eapply read_keeps_entries; eauto.
Qed.

(** X1.  At most one fold in flight, and a final value computed once, for a
    property written as the operation name.  What a read of the property
    returned, the Pending marker of its fiber or the final value, is what a
    later read of that property on a range of the same geometry returns, as
    long as the host has run no fiber in between: whatever the sheet has
    become and whichever aggregation properties written as operation names
    were read since, the later read comes from the cache and leaves the
    session as it is (no cell read, no fiber made). *)
Theorem cached_answer_reused (range1 range2 : Range) (name : string)
    (σ σ1 σ2 : Store) (content : Content) :
  name ∈ operationNames →
  tlRow range1 = tlRow range2 → tlCol range1 = tlCol range2 →
  height range1 = height range2 → width range1 = width range2 →
  Readable_read range1 name σ = Some (Returned content, σ1) →
  quiet σ1 σ2 →
  Readable_read range2 name σ2 = Some (Returned content, σ2).
Proof.
  intros Hname ? ? ? ? Hfirst Hquiet.
  assert (range2 = range1) as -> by (destruct range1, range2; simplify_eq/=; done).
  apply (read_answer_cached _ _ _ _ _ Hname) in Hfirst.
  apply (quiet_keeps_entries _ _ _ _ Hquiet) in Hfirst.
  destruct (aggregations_operation name Hname) as (r & _ & Hfn & _).
  by rewrite (read_aggregation _ _ _ _ Hfn), Hfirst.
Qed.

(** X3.  Reads of properties written as operation names never replace a cache
    entry: they add the entry of their own key when it is missing. *)
Lemma cache_entries_kept (range : Range) (name : string) (σ σ' : Store)
    (result : ReadResult) (k : string) (content : Content) :
  name ∈ operationNames →
  Readable_read range name σ = Some (result, σ') →
  cache σ !! k = Some content →
  cache σ' !! k = Some content.
Proof.
  intros Hname Hread Hk.
  destruct (aggregations_operation name Hname) as (r & _ & Hfn & _).
  rewrite (read_aggregation _ _ _ _ Hfn) in Hread.
  destruct (cache σ !! makeCacheKey range name) as [value|] eqn:Hc.
  - by simplify_eq.
  - destruct (aggregate name r range None σ) as [[c σ'']|] eqn:Hrun; simplify_eq/=.
    apply aggregate_fresh_cache in Hrun. rewrite Hrun.
    rewrite lookup_insert_ne; [done|]. intros Heq. rewrite Heq in Hc. congruence.
Qed.

End Cache.

(** ** C1 and C4: the cache and the upper-case aliases *)

(** C1 (at most one fold in flight), on the sheet A1:A3 = 1, 2, Pending:
    the property "SUM" is requested twice.  The first request suspends fiber
    0 on the third cell and stores its marker under the operation's key,
    "sum;0;0;3;1".  The second request looks for "SUM;0;0;3;1", finds
    nothing, makes fiber 1 and reads the three cells again from the first. *)
Theorem C1_upper_case_request_restarts_scan :
  ∃ σ1 σ2 : Store,
    exampleRead A1A3 "SUM" (session sheetPending)
      = Some (Returned (Pending (FunctionFiberAt 0)), σ1)
    ∧ cache σ1 = {[ makeCacheKey A1A3 "sum" := Pending (FunctionFiberAt 0) ]}
    ∧ fibers σ1 = [suspendedSum]
    ∧ visited σ1 = [(0, 0); (1, 0); (2, 0)]
    ∧ cache σ1 !! makeCacheKey A1A3 "SUM" = None
    ∧ exampleRead A1A3 "SUM" σ1
        = Some (Returned (Pending (FunctionFiberAt 1)), σ2)
    ∧ fibers σ2 = [suspendedSum; suspendedSum]
    ∧ visited σ2 = visited σ1 ++ [(0, 0); (1, 0); (2, 0)].
Proof.
  eexists _, _. split_and!.
  - vm_compute. reflexivity.
  - vm_compute. reflexivity.
  - reflexivity.
  - reflexivity.
  - vm_compute. reflexivity.
  - vm_compute. reflexivity.
  - reflexivity.
  - reflexivity.
Qed.

(** C4 (idempotent finalization), on the sheet A1:A3 = 1, 2, 3: the property
    "SUM" is read twice.  The first read stores the final value 6 under
    "sum;0;0;3;1".  The second read runs the fold again on a new fiber and
    reads the three cells again; and when the third cell has become 4 in
    between, it replaces the final 6 under that key by 7. *)
Theorem C4_upper_case_read_runs_fold_again :
  ∃ σ1 σ2 σ3 : Store,
    exampleRead A1A3 "SUM" (session sheetResolved)
      = Some (Returned (Value (VNum 6)), σ1)
    ∧ cache σ1 = {[ makeCacheKey A1A3 "sum" := Value (VNum 6) ]}
    ∧ length (fibers σ1) = 1%nat
    ∧ exampleRead A1A3 "SUM" σ1 = Some (Returned (Value (VNum 6)), σ2)
    ∧ length (fibers σ2) = 2%nat
    ∧ visited σ2 = visited σ1 ++ [(0, 0); (1, 0); (2, 0)]
    ∧ exampleRead A1A3 "SUM" (with_sheet sheetEdited σ1)
        = Some (Returned (Value (VNum 7)), σ3)
    ∧ cache σ3 = {[ makeCacheKey A1A3 "sum" := Value (VNum 7) ]}.
Proof.
  eexists _, _, _. split_and!.
  - vm_compute. reflexivity.
  - vm_compute. reflexivity.
  - reflexivity.
  - vm_compute. reflexivity.
  - reflexivity.
  - reflexivity.
  - vm_compute. reflexivity.
  - vm_compute. reflexivity.
Qed.

(** ** C3: the names of the aggregation properties *)

(** C3 fails for a mixed-case name: "Sum" equals "sum" up to letter case,
    the cache is empty, and the read does not run the sum (which is 6 here):
    it takes the path of an unmatched property, reads the anchor cell and
    returns the unknown-field error. *)
Lemma C3_mixed_case_counterexample :
  toLowerCase "Sum" = "sum"
  ∧ "sum" ∈ operationNames
  ∧ cache (session sheetResolved) !! makeCacheKey A1A3 "Sum" = None
  ∧ exampleRead A1A3 "Sum" (session sheetResolved)
      = Some (Returned (Value (VObj errors_unknownField)),
              mkStore sheetResolved ∅ [] [(0, 0)])
  ∧ exampleRead A1A3 "Sum" (session sheetResolved)
      ≠ returned (rangeSum A1A3 None (session sheetResolved)).
Proof.
  split_and!.
  - reflexivity.
  - unfold operationNames. apply list_elem_of_here.
  - reflexivity.
  - vm_compute. reflexivity.
  - vm_compute. discriminate.
Qed.

Section Names.
Context {H : Host} {T : TypeMaps}.

(** The path of a property that is neither an aggregation nor a
    coordinate. *)
Lemma read_default (receiver : Range) (message : string) (σ : Store) :
  aggregations message = None →
  message ∉ ["row"; "ROW"; "column"; "COLUMN"] →
  let σ1 := mkStore (read σ) (cache σ) (fibers σ)
              (visited σ ++ [(tlRow receiver, tlCol receiver)]) in
  Readable_read receiver message σ
    = match read σ (tlRow receiver) (tlCol receiver) with
      | Pending fiber => Some (Returned (Pending fiber), σ1)
      | Value (VObj o) =>
          match typeMap_Readable o with
          | Some reader => reader o message σ1
          | None => Some (Returned (Value (VObj errors_unknownField)), σ1)
          end
      | Value _ => Some (Returned (Value (VObj errors_unknownField)), σ1)
      end.
Proof.
  intros Hnone Hcoord σ1. unfold Readable_read. rewrite Hnone.
  rewrite !not_elem_of_cons in Hcoord. destruct Hcoord as (?&?&?&?&_).
  repeat match goal with
    | |- context [String.eqb message ?s] =>
        destruct (String.eqb_spec message s); [done|]
    end.
  simpl. by destruct (read σ (tlRow receiver) (tlCol receiver)) as [[]|].
Qed.

(** A casing of an operation name other than the lower-case and the
    upper-case one is no key of the table, no member of [Object.prototype]
    and no coordinate. *)
Lemma mixed_case_unmatched (name message : string) (r : FunctionRunner) :
  initialRunner name = Some r →
  toLowerCase message = name →
  message ≠ name → message ≠ toUpperCase name →
  aggregations message = None
  ∧ message ∉ ["row"; "ROW"; "column"; "COLUMN"].
Proof.
  intros Hr Hlow Hne Hne'.
  assert (∀ s, message = s →
            initialRunner (toLowerCase s) = None
            ∨ toLowerCase s = s ∨ toUpperCase (toLowerCase s) = s → False) as Hno.
  { intros s -> [Hs|[Hs|Hs]].
    - rewrite Hlow in Hs. congruence.
    - apply Hne. by rewrite <- Hlow.
    - apply Hne'. by rewrite <- Hlow. }
  split.
  - unfold aggregations, aggregations_own, own_property.
    repeat match goal with
      | |- context [String.eqb ?s message] =>
          destruct (String.eqb_spec s message) as [Heq|_];
          [exfalso; apply (Hno s); [done|]; vm_compute; tauto|]
      end.
    rewrite bool_decide_eq_false_2; [done|].
    unfold Object_prototype. rewrite !not_elem_of_cons.
    split_and!; try apply not_elem_of_nil;
      intros Heq; apply (Hno _ Heq); vm_compute; tauto.
  - rewrite !not_elem_of_cons.
    split_and!; try apply not_elem_of_nil;
      intros Heq; apply (Hno _ Heq); vm_compute; tauto.
Qed.

(** C3, amended.  For a property name that equals an operation name up to
    letter case.  Written in lower case: an entry of the cache under the key
    of the property and the range is returned as it is, with nothing run,
    and without one the read runs that operation's aggregation on a fresh
    fiber.  Written entirely in upper case: the read runs that aggregation
    on a fresh fiber when the cache holds no entry for the operation and the
    range under either spelling.  Written in any other casing it is no
    property of the table, and the read takes the path of an unmatched
    property: the anchor cell is read once, a Pending cell is returned as it
    is, an object with a Readable capability answers the property itself,
    and anything else is the unknown-field error. *)
Theorem C3_lower_and_upper_case_names (receiver : Range) (name message : string)
    (r : FunctionRunner) (σ : Store) :
  initialRunner name = Some r →
  toLowerCase message = name →
  (cache σ !! makeCacheKey receiver name = None →
   Readable_read receiver name σ = returned (aggregate name r receiver None σ))
  ∧ (∀ value,
       cache σ !! makeCacheKey receiver name = Some value →
       Readable_read receiver name σ = Some (Returned value, σ))
  ∧ (cache σ !! makeCacheKey receiver name = None →
     cache σ !! makeCacheKey receiver (toUpperCase name) = None →
     Readable_read receiver (toUpperCase name) σ
     = returned (aggregate name r receiver None σ))
  ∧ (message ≠ name → message ≠ toUpperCase name →
     aggregations message = None
     ∧ Readable_read receiver message σ
       = let σ1 := mkStore (read σ) (cache σ) (fibers σ)
                     (visited σ ++ [(tlRow receiver, tlCol receiver)]) in
         match read σ (tlRow receiver) (tlCol receiver) with
         | Pending fiber => Some (Returned (Pending fiber), σ1)
         | Value (VObj o) =>
             match typeMap_Readable o with
             | Some reader => reader o message σ1
             | None => Some (Returned (Value (VObj errors_unknownField)), σ1)
             end
         | Value _ => Some (Returned (Value (VObj errors_unknownField)), σ1)
         end).
Proof.
  intros Hr Hcase.
  destruct (aggregations_operation name (initialRunner_operation _ _ Hr))
    as (r' & Hr' & Hlower & Hupper).
  assert (r' = r) as -> by congruence.
  split_and!.
  - intros Hmiss. by rewrite (read_aggregation _ _ _ _ Hlower), Hmiss.
  - intros value Hhit. by rewrite (read_aggregation _ _ _ _ Hlower), Hhit.
  - intros _ Hmiss. by rewrite (read_aggregation _ _ _ _ Hupper), Hmiss.
  - intros Hne Hne'.
    destruct (mixed_case_unmatched name message r Hr Hcase Hne Hne') as [Hnone Hcoord].
    split; [done|]. by apply read_default.
Qed.

End Names.

Lemma C3_lower_and_upper_case_names_witness :
  exampleRead A1A3 "SUM" (session sheetResolved)
    = returned (aggregate "sum" (createSum 0) A1A3 None (session sheetResolved))
  ∧ exampleRead A1A3 "sUm" (session sheetResolved)
    = Some (Returned (Value (VObj errors_unknownField)),
            mkStore sheetResolved ∅ [] [(0, 0)]).
Proof.
  destruct (C3_lower_and_upper_case_names (T := exampleTypeMaps) A1A3 "sum" "sUm"
              (createSum 0) (session sheetResolved))
    as (_ & _ & Hupper & Hmixed); [reflexivity..|].
  split.
  - apply Hupper; reflexivity.
  - destruct Hmixed as [_ Hread]; [discriminate..|]. exact Hread.
Defined.

(** ** C6: properties that are not aggregations *)

(** C6 (unmatched-property delegation), on the sheet A1:A3 = 1, 2, 3: the
    property "toString" is not an aggregation of the table and is not a
    coordinate, yet [aggregations["toString"]] is defined, being inherited
    from [Object.prototype]; the read calls that member and never reads the
    anchor cell, so it neither delegates nor returns the unknown-field
    error. *)
Theorem C6_inherited_property_is_called :
  own_property (aggregations_own (H := exampleHost)) "toString" = None
  ∧ ("toString" ∉ ["row"; "ROW"; "column"; "COLUMN"])
  ∧ exampleRead A1A3 "toString" (session sheetResolved)
      = Some (ObjectPrototypeCall "toString", session sheetResolved)
  ∧ visited (session sheetResolved) = [].
Proof.
  split_and!.
  - reflexivity.
  - rewrite !not_elem_of_cons. split_and!; try discriminate. apply not_elem_of_nil.
  - vm_compute. reflexivity.
  - reflexivity.
Qed.

(** ** C7: anchor coordinates and dereference *)

(** C7.  On every Range, "row" and "ROW" read as [tlRow + 1], "column" and
    "COLUMN" as [tlCol + 1], with nothing read and nothing changed; and
    [dereference] is the one call [context.read(tlRow, tlCol)], whose result
    is handed back as it is, whatever it is. *)
Theorem C7_anchor_coordinates_and_dereference
    (H : Host) (T : TypeMaps) (receiver : Range) (σ : Store) :
  Readable_read receiver "row" σ
    = Some (Returned (Value (VNum (number_of_Z (tlRow receiver + 1)))), σ)
  ∧ Readable_read receiver "ROW" σ
    = Some (Returned (Value (VNum (number_of_Z (tlRow receiver + 1)))), σ)
  ∧ Readable_read receiver "column" σ
    = Some (Returned (Value (VNum (number_of_Z (tlCol receiver + 1)))), σ)
  ∧ Readable_read receiver "COLUMN" σ
    = Some (Returned (Value (VNum (number_of_Z (tlCol receiver + 1)))), σ)
  ∧ Reference_dereference receiver σ
    = (read σ (tlRow receiver) (tlCol receiver),
       mkStore (read σ) (cache σ) (fibers σ)
         (visited σ ++ [(tlRow receiver, tlCol receiver)])).
Proof. split_and!; reflexivity. Qed.

(** ** C10: fromReference *)

(** C10.  With both [row2] and [col2] given, the Range starts at the smaller
    row and the smaller column and spans the distance of the corners plus
    one each way, so both dimensions are at least 1 and the corners may come
    in any order; with [row2] or [col2] missing, it is the 1 by 1 Range at
    [(row1, col1)], whatever the other one is. *)
Theorem C10_fromReference (r1 c1 : Z) (r2 c2 : option Z) :
  (∀ r2' c2',
     r2 = Some r2' → c2 = Some c2' →
     fromReference (mkReference r1 c1 r2 c2)
       = mkRange (Z.min r1 r2') (Z.min c1 c2')
           (Z.abs (r1 - r2') + 1) (Z.abs (c1 - c2') + 1)
     ∧ 1 ≤ height (fromReference (mkReference r1 c1 r2 c2))
     ∧ 1 ≤ width (fromReference (mkReference r1 c1 r2 c2))
     ∧ fromReference (mkReference r2' c2' (Some r1) (Some c1))
         = fromReference (mkReference r1 c1 r2 c2)
     ∧ fromReference (mkReference r2' c1 (Some r1) (Some c2'))
         = fromReference (mkReference r1 c1 r2 c2))
  ∧ (r2 = None ∨ c2 = None →
     fromReference (mkReference r1 c1 r2 c2) = mkRange r1 c1 1 1).
Proof.
  split.
  - intros r2' c2' -> ->. unfold fromReference. simpl.
    split_and!; try lia; f_equal;
      repeat match goal with
        | |- context [Z.ltb ?a ?b] => destruct (Z.ltb_spec a b)
        end; lia.
  - intros [-> | ->]; [done|]. by destruct r2.
Qed.

Lemma C10_fromReference_witness :
  fromReference (mkReference 5 2 (Some 3) (Some 7)) = mkRange 3 2 3 6
  ∧ fromReference (mkReference 5 2 None (Some 7)) = mkRange 5 2 1 1.
Proof.
  split.
  - apply (proj1 (C10_fromReference 5 2 (Some 3) (Some 7)) 3 7 eq_refl eq_refl).
  - apply (proj2 (C10_fromReference 5 2 None (Some 7))). left. reflexivity.
Defined.

(** ** The runners *)

Section Runners.
Context {H : Host}.

Lemma runAll_createSum (x : float) (vs : list CalcValue) :
  runAll (createSum x) vs = createSum (foldl PrimFloat.add x (numbers vs)).
Proof.
  revert x. induction vs as [|[n| | | |] vs IH]; intros x;
    [done | exact (IH (x + n)%float) | exact (IH x)..].
Qed.

Lemma runAll_createProduct (x : float) (vs : list CalcValue) :
  runAll (createProduct x) vs = createProduct (foldl PrimFloat.mul x (numbers vs)).
Proof.
  revert x. induction vs as [|[n| | | |] vs IH]; intros x;
    [done | exact (IH (x * n)%float) | exact (IH x)..].
Qed.

Lemma runAll_createCount (x : float) (vs : list CalcValue) :
  runAll (createCount x) vs
    = createCount (foldl (λ c _, (c + 1)%float) x (numbers vs)).
Proof.
  revert x. induction vs as [|[n| | | |] vs IH]; intros x;
    [done | exact (IH (x + 1)%float) | exact (IH x)..].
Qed.

Lemma runAll_createConcat (x : string) (vs : list CalcValue) :
  runAll (createConcat x) vs = createConcat (foldl String.append x (strings vs)).
Proof.
  revert x. induction vs as [|[|s| | |] vs IH]; intros x;
    [done | exact (IH x) | exact (IH (x +:+ s)) | exact (IH x)..].
Qed.

Lemma runAll_createAverage (x : float * float) (vs : list CalcValue) :
  runAll (createAverage x) vs
    = createAverage (foldl (λ tc n, ((tc.1 + n)%float, (tc.2 + 1)%float)) x (numbers vs)).
Proof.
  revert x. induction vs as [|[n| | | |] vs IH]; intros x;
    [done | exact (IH ((x.1 + n)%float, (x.2 + 1)%float)) | exact (IH x)..].
Qed.

(** A fresh request over a range whose cells all read as values completes
    with the finisher's result and leaves it in the cache. *)
Lemma aggregate_resolved (name : string) (r : FunctionRunner) (range : Range)
    (σ : Store) (vs : list CalcValue) :
  resolved (read σ) (cellsOf range) vs →
  ∃ σ',
    aggregate name r range None σ = Some (Value (outcome (runAll r vs)), σ')
    ∧ cache σ' = <[makeCacheKey range name := Value (outcome (runAll r vs))]> (cache σ)
    ∧ visited σ' = visited σ ++ cellsOf range.
Proof.
  intros Hres. rewrite aggregate_fresh, (rowMajorScan_resolved _ _ vs) by done.
  eexists. split_and!; reflexivity.
Qed.

End Runners.

(** ** C8: runners skip values of the wrong type *)

(** C8.  One step of sum, product, count and concat changes the accumulator
    only for a value of its type (a number; for concat a string) and leaves
    it as it is for any other value; a step is a total function, so no value
    makes it fail.  Over any sequence of scanned values the result is
    therefore the fold over the numbers (the strings) among them, in scan
    order; and the sum of a range whose cells all read as values is the sum
    of its numeric cells, starting from 0. *)
Theorem C8_runner_type_skipping (H : Host) :
  (∀ x v, applyRun (createSum x) v
          = createSum (match v with VNum n => (x + n)%float | _ => x end))
  ∧ (∀ x v, applyRun (createProduct x) v
            = createProduct (match v with VNum n => (x * n)%float | _ => x end))
  ∧ (∀ x v, applyRun (createCount x) v
            = createCount (match v with VNum _ => (x + 1)%float | _ => x end))
  ∧ (∀ x v, applyRun (createConcat x) v
            = createConcat (match v with VStr s => x +:+ s | _ => x end))
  ∧ (∀ vs, outcome (runAll (createSum 0) vs)
           = VNum (foldl PrimFloat.add 0%float (numbers vs)))
  ∧ (∀ vs, outcome (runAll (createProduct 1) vs)
           = VNum (foldl PrimFloat.mul 1%float (numbers vs)))
  ∧ (∀ vs, outcome (runAll (createCount 0) vs)
           = VNum (foldl (λ c _, (c + 1)%float) 0%float (numbers vs)))
  ∧ (∀ vs, outcome (runAll (createConcat "") vs)
           = VStr (foldl String.append "" (strings vs)))
  ∧ (∀ (range : Range) (σ : Store) (vs : list CalcValue),
       resolved (read σ) (cellsOf range) vs →
       ∃ σ',
         rangeSum range None σ
           = Some (Value (VNum (foldl PrimFloat.add 0%float (numbers vs))), σ')
         ∧ cache σ' !! makeCacheKey range "sum"
           = Some (Value (VNum (foldl PrimFloat.add 0%float (numbers vs))))).
Proof.
  split_and!; try reflexivity.
  - intros vs. by rewrite runAll_createSum.
  - intros vs. by rewrite runAll_createProduct.
  - intros vs. by rewrite runAll_createCount.
  - intros vs. by rewrite runAll_createConcat.
  - intros range σ vs Hres.
    destruct (aggregate_resolved "sum" (createSum 0) range σ vs Hres)
      as (σ' & Hrun & Hcache & _).
    exists σ'. rewrite runAll_createSum in Hrun, Hcache. split; [done|].
    by rewrite Hcache, lookup_insert_eq.
Qed.

Lemma C8_runner_type_skipping_witness :
  ∃ σ' : Store,
    rangeSum (mkRange 0 0 3 2) None (session sheetResolved)
      = Some (Value (VNum 6), σ').
Proof.
  destruct (proj2 (proj2 (proj2 (proj2 (proj2 (proj2 (proj2 (proj2
              (C8_runner_type_skipping exampleHost))))))))
              (mkRange 0 0 3 2) (session sheetResolved)
              [VNum 1; VStr ""; VNum 2; VStr ""; VNum 3; VStr ""])
    as (σ' & Hrun & _).
  - repeat constructor.
  - exists σ'. exact Hrun.
Defined.

(** ** C5: the average of no numbers *)

(** C5.  When every cell of a range reads as a value and none of the values
    is a number, a fresh average completes: the count is still 0, the
    finisher returns the division-by-zero error object (an object, not a
    number), it is stored under the range's "average" key, and a read of the
    property "average" with no cache entry returns it. *)
Theorem C5_average_without_numbers (H : Host) (T : TypeMaps) (range : Range)
    (σ : Store) (vs : list CalcValue) :
  resolved (read σ) (cellsOf range) vs →
  numbers vs = [] →
  runAll (createAverage (0, 0)%float) vs = createAverage (0, 0)%float
  ∧ finishAverage (0, 0)%float = VObj errors_div0
  ∧ ∃ σ',
      rangeAverage range None σ = Some (Value (VObj errors_div0), σ')
      ∧ cache σ' !! makeCacheKey range "average" = Some (Value (VObj errors_div0))
      ∧ (cache σ !! makeCacheKey range "average" = None →
         Readable_read range "average" σ
           = Some (Returned (Value (VObj errors_div0)), σ')).
Proof.
  intros Hres Hnone.
  assert (runAll (createAverage (0, 0)%float) vs = createAverage (0, 0)%float) as Hrun
    by (by rewrite runAll_createAverage, Hnone).
  split_and!; [done..|].
  destruct (aggregate_resolved "average" (createAverage (0, 0)%float) range σ vs Hres)
    as (σ' & Havg & Hcache & _).
  rewrite Hrun in Havg, Hcache.
  exists σ'. split_and!.
  - exact Havg.
  - by rewrite Hcache, lookup_insert_eq.
  - intros Hmiss.
    rewrite (read_aggregation _ _ _ rangeAverage) by reflexivity.
    rewrite Hmiss. unfold rangeAverage. by rewrite Havg.
Qed.

Lemma C5_average_without_numbers_witness :
  ∃ σ' : Store,
    rangeAverage (mkRange 0 1 2 2) None (session sheetResolved)
      = Some (Value (VObj errors_div0), σ').
Proof.
  destruct (C5_average_without_numbers exampleHost exampleTypeMaps
              (mkRange 0 1 2 2) (session sheetResolved)
              [VStr ""; VStr ""; VStr ""; VStr ""])
    as (_ & _ & σ' & Hrun & _).
  - repeat constructor.
  - reflexivity.
  - exists σ'. exact Hrun.
Defined.

(** ** The order of doubles *)

Section FloatOrder.

Lemma SFltb_irrefl (x : spec_float) : SFltb x x = false.
Proof.
  destruct x as [[]|[]| |[] m e]; try reflexivity;
    unfold SFltb, SFcompare; rewrite Z.compare_refl;
    change (Pos.compare_cont Eq m m) with (Pos.compare m m);
    by rewrite Pos.compare_refl.
Qed.

Ltac compare_cases :=
  repeat match goal with
    | |- context [Z.compare ?a ?b] => destruct (Z.compare_spec a b)
    | H : context [Z.compare ?a ?b] |- _ => destruct (Z.compare_spec a b)
    | |- context [Pos.compare ?a ?b] => destruct (Pos.compare_spec a b)
    | H : context [Pos.compare ?a ?b] |- _ => destruct (Pos.compare_spec a b)
    end;
  simpl in *; try congruence; try lia.

Lemma SFltb_trans (x y z : spec_float) :
  SFltb x y = true → SFltb y z = true → SFltb x z = true.
Proof.
  intros H1 H2.
  destruct x as [[]|[]| |[] m1 e1], y as [[]|[]| |[] m2 e2], z as [[]|[]| |[] m3 e3];
    unfold SFltb, SFcompare in *; try congruence;
    change (Pos.compare_cont Eq) with Pos.compare in *;
    compare_cases.
Qed.

Lemma SFleb_of_not_ltb (x y : spec_float) :
  SFeqb x x = true → SFeqb y y = true → SFltb x y = false → SFleb y x = true.
Proof.
  intros Hx Hy H1.
  destruct x as [[]|[]| |[] m1 e1], y as [[]|[]| |[] m2 e2];
    unfold SFeqb, SFltb, SFleb, SFcompare in *; try congruence; clear Hx Hy;
    change (Pos.compare_cont Eq) with Pos.compare in *;
    compare_cases.
Qed.

Lemma ltb_irrefl (x : float) : (x <? x)%float = false.
Proof. rewrite FloatAxioms.ltb_spec. apply SFltb_irrefl. Qed.

Lemma ltb_trans (x y z : float) :
  (x <? y)%float = true → (y <? z)%float = true → (x <? z)%float = true.
Proof. rewrite !FloatAxioms.ltb_spec. apply SFltb_trans. Qed.

(** Among numbers that are not NaN, "not less" is "greater or equal". *)
Lemma leb_of_not_ltb (x y : float) :
  (x =? x)%float = true → (y =? y)%float = true →
  (x <? y)%float = false → (y <=? x)%float = true.
Proof.
  rewrite !FloatAxioms.eqb_spec, FloatAxioms.ltb_spec, FloatAxioms.leb_spec.
  apply SFleb_of_not_ltb.
Qed.

Lemma SFltb_true_eqb (x y : spec_float) :
  SFltb x y = true → SFeqb x x = true ∧ SFeqb y y = true.
Proof.
  destruct x as [[]|[]| |[] m1 e1], y as [[]|[]| |[] m2 e2];
    unfold SFeqb, SFltb, SFcompare; try done; intros _;
    rewrite !Z.compare_refl;
    change (Pos.compare_cont Eq) with Pos.compare;
    by rewrite !Pos.compare_refl.
Qed.

(** A comparison that holds has no NaN on either side. *)
Lemma ltb_true_eqb (x y : float) :
  (x <? y)%float = true → (x =? x)%float = true ∧ (y =? y)%float = true.
Proof. rewrite FloatAxioms.ltb_spec, !FloatAxioms.eqb_spec. apply SFltb_true_eqb. Qed.

Lemma ltb_nan_l (x y : float) : (x =? x)%float = false → (x <? y)%float = false.
Proof.
  intros Hx. destruct (x <? y)%float eqn:Hlt; [|done].
  apply ltb_true_eqb in Hlt as [? _]. congruence.
Qed.

Lemma ltb_nan_r (x y : float) : (y =? y)%float = false → (x <? y)%float = false.
Proof.
  intros Hy. destruct (x <? y)%float eqn:Hlt; [|done].
  apply ltb_true_eqb in Hlt as [_ ?]. congruence.
Qed.

End FloatOrder.

(** ** Keeping the best number seen *)

Section KeepBest.
Variable beats : float → float → bool.
Hypothesis beats_irrefl : ∀ x, beats x x = false.
Hypothesis beats_trans : ∀ x y z, beats x y = true → beats y z = true → beats x z = true.

Lemma keepBest_kept (m : float) (seen nums : list float) :
  m ∈ seen →
  (∀ n, n ∈ seen → beats n m = false) →
  ∃ m',
    foldl (keepBest beats) (Some m) nums = Some m'
    ∧ m' ∈ seen ++ nums
    ∧ ∀ n, n ∈ seen ++ nums → beats n m' = false.
Proof.
  revert m seen. induction nums as [|n nums IH]; intros m seen Hm Hbest.
  - exists m. rewrite app_nil_r. done.
  - simpl. unfold keepBest at 2. rewrite (cons_middle n seen nums), app_assoc.
    destruct (beats n m) eqn:Hn.
    + apply IH; [set_solver|].
      intros x [Hx | ->%list_elem_of_singleton]%elem_of_app; [|done].
      destruct (beats x n) eqn:Hxn; [|done].
      rewrite <- (Hbest x Hx). symmetry. by eapply beats_trans.
    + apply IH; [set_solver|].
      intros x [Hx | ->%list_elem_of_singleton]%elem_of_app; auto.
Qed.

Lemma keepBest_first (nums : list float) :
  nums ≠ [] →
  ∃ m,
    foldl (keepBest beats) None nums = Some m
    ∧ m ∈ nums
    ∧ ∀ n, n ∈ nums → beats n m = false.
Proof.
  destruct nums as [|n nums]; [done|]. intros _. simpl.
  apply (keepBest_kept n [n] nums); [set_solver|].
  by intros x ->%list_elem_of_singleton.
Qed.

End KeepBest.

Section KeepBestNaN.
Variable beats : float → float → bool.
Variable good : float → bool.
Hypothesis beats_good : ∀ n r, beats n r = true → good n = true.

(** A number that nothing beats is kept to the end. *)
Lemma keepBest_stuck (m : float) (nums : list float) :
  (∀ n, beats n m = false) →
  foldl (keepBest beats) (Some m) nums = Some m.
Proof.
  intros Hm. induction nums as [|n nums IH]; [done|].
  simpl. unfold keepBest at 2. by rewrite Hm.
Qed.

Lemma keepBest_good (m m' : float) (nums : list float) :
  good m = true →
  foldl (keepBest beats) (Some m) nums = Some m' →
  good m' = true.
Proof.
  revert m. induction nums as [|n nums IH]; intros m Hm; simpl.
  - by intros [= <-].
  - unfold keepBest at 2. destruct (beats n m) eqn:Hn; eauto.
Qed.

End KeepBestNaN.

Section MaxMin.
Context {H : Host}.

Lemma runAll_createMax (x : option float) (vs : list CalcValue) :
  runAll (createMax x) vs
    = createMax (foldl (keepBest (λ n r, (r <? n)%float)) x (numbers vs)).
Proof.
  revert x. induction vs as [|[n| | | |] vs IH]; intros x;
    [done | exact (IH (keepBest (λ n r, (r <? n)%float) x n)) | exact (IH x)..].
Qed.

Lemma runAll_createMin (x : option float) (vs : list CalcValue) :
  runAll (createMin x) vs
    = createMin (foldl (keepBest (λ n r, (n <? r)%float)) x (numbers vs)).
Proof.
  revert x. induction vs as [|[n| | | |] vs IH]; intros x;
    [done | exact (IH (keepBest (λ n r, (n <? r)%float) x n)) | exact (IH x)..].
Qed.

(** What the two folds keep of a list of numbers that is not empty. *)
Lemma max_min_of_numbers (first : float) (rest : list float) :
  ∃ hi lo,
    foldl (keepBest (λ n r, (r <? n)%float)) None (first :: rest) = Some hi
    ∧ foldl (keepBest (λ n r, (n <? r)%float)) None (first :: rest) = Some lo
    ∧ hi ∈ first :: rest ∧ lo ∈ first :: rest
    ∧ ((first =? first)%float = false → hi = first ∧ lo = first)
    ∧ ((first =? first)%float = true →
       (hi =? hi)%float = true ∧ (lo =? lo)%float = true
       ∧ ∀ n, n ∈ first :: rest → (n =? n)%float = true →
           (lo <=? n)%float = true ∧ (n <=? hi)%float = true).
Proof.
  destruct (keepBest_first (λ n r, (r <? n)%float)
              (λ x, ltb_irrefl x) (λ x y z Hxy Hyz, ltb_trans z y x Hyz Hxy)
              (first :: rest)) as (hi & Hhi & Hhi_in & Hhi_best); [done|].
  destruct (keepBest_first (λ n r, (n <? r)%float)
              (λ x, ltb_irrefl x) ltb_trans
              (first :: rest)) as (lo & Hlo & Hlo_in & Hlo_best); [done|].
  change (foldl (keepBest ?b) None (first :: rest))
    with (foldl (keepBest b) (Some first) rest) in Hhi, Hlo.
  exists hi, lo. split_and!; try done.
  - intros Hnan.
    rewrite keepBest_stuck in Hhi by (intros n; by apply ltb_nan_l).
    rewrite keepBest_stuck in Hlo by (intros n; by apply ltb_nan_r).
    by simplify_eq.
  - intros Hnum.
    assert ((hi =? hi)%float = true) as Hhi_num.
    { apply (keepBest_good (λ n r, (r <? n)%float) (λ n, (n =? n)%float))
        with (m := first) (nums := rest); [|done..].
      intros n r Hlt. by apply ltb_true_eqb in Hlt as [_ ?]. }
    assert ((lo =? lo)%float = true) as Hlo_num.
    { apply (keepBest_good (λ n r, (n <? r)%float) (λ n, (n =? n)%float))
        with (m := first) (nums := rest); [|done..].
      intros n r Hlt. by apply ltb_true_eqb in Hlt as [? _]. }
    split_and!; [done..|]. intros n Hn Hn_num. split.
    + apply leb_of_not_ltb; auto.
    + apply leb_of_not_ltb; auto.
Qed.

End MaxMin.

(** ** C9: max and min *)

(** C9 fails where a numeric cell is NaN.  With NaN, 1, 2 in A1:A3 max and
    min both return NaN: the result is not greater or equal to the cell 2,
    not less or equal to the cell 1, and is not 2, the largest of the other
    cells; so max does not return a numeric cell value that is at least the
    cells 1 and 2.  With 5, NaN, 7 they return 7 and 5, so a NaN among the numbers is
    not what is returned either: the result depends on where the NaN is. *)
Lemma C9_nan_counterexample :
  numbers [VNum (H := exampleHost) nan; VNum 1; VNum 2] = [nan; 1; 2]%float
  ∧ (∃ σ1 σ2,
       rangeMax (H := exampleHost) A1A3 None (session sheetNaNFirst)
         = Some (Value (VNum nan), σ1)
       ∧ rangeMin (H := exampleHost) A1A3 None (session sheetNaNFirst)
         = Some (Value (VNum nan), σ2))
  ∧ (2 <=? nan)%float = false
  ∧ (nan <=? 1)%float = false
  ∧ (nan =? 2)%float = false
  ∧ ¬ (∃ hi σ1,
         rangeMax (H := exampleHost) A1A3 None (session sheetNaNFirst)
           = Some (Value (VNum hi), σ1)
         ∧ hi ∈ [nan; 1; 2]%float
         ∧ ∀ n, n ∈ [1; 2]%float → (n <=? hi)%float = true)
  ∧ (∃ σ3 σ4,
       rangeMax (H := exampleHost) A1A3 None (session sheetNaNSecond)
         = Some (Value (VNum 7), σ3)
       ∧ rangeMin (H := exampleHost) A1A3 None (session sheetNaNSecond)
         = Some (Value (VNum 5), σ4)).
Proof.
  split_and!; try reflexivity.
  - eexists _, _. split; vm_compute; reflexivity.
  - intros (hi & σ1 & Hmax & _ & Hbound).
    vm_compute in Hmax. injection Hmax as <- _.
    specialize (Hbound 2%float). rewrite !elem_of_cons in Hbound.
    by specialize (Hbound ltac:(tauto)).
  - eexists _, _. split; vm_compute; reflexivity.
Qed.

(** C9, amended.  Over a range whose cells all read as values: with no number
    among them, max and min complete with the accumulator still "none seen",
    which the finisher turns into 0, so both return 0; with at least one
    number, both return one of the numeric cell values: when the first
    numeric cell in scan order is NaN, that NaN; otherwise a number that is
    not NaN, at least (for max) and at most (for min) every numeric cell
    value that is not NaN, the numeric cells that are NaN being skipped.  In
    particular, when no numeric cell is NaN, max and min return the maximum
    and the minimum of the numeric cell values. *)
Theorem C9_max_min (H : Host) (range : Range) (σ : Store) (vs : list CalcValue) :
  resolved (read σ) (cellsOf range) vs →
  (numbers vs = [] →
     runAll (createMax None) vs = createMax None
     ∧ runAll (createMin None) vs = createMin None
     ∧ fromUndefined None = 0%float
     ∧ (∃ σ', rangeMax range None σ = Some (Value (VNum 0), σ'))
     ∧ (∃ σ', rangeMin range None σ = Some (Value (VNum 0), σ')))
  ∧ (∀ first rest, numbers vs = first :: rest →
     ∃ hi lo σ1 σ2,
       rangeMax range None σ = Some (Value (VNum hi), σ1)
       ∧ rangeMin range None σ = Some (Value (VNum lo), σ2)
       ∧ hi ∈ numbers vs ∧ lo ∈ numbers vs
       ∧ ((first =? first)%float = false → hi = first ∧ lo = first)
       ∧ ((first =? first)%float = true →
          (hi =? hi)%float = true ∧ (lo =? lo)%float = true
          ∧ ∀ n, n ∈ numbers vs → (n =? n)%float = true →
              (lo <=? n)%float = true ∧ (n <=? hi)%float = true)).
Proof.
  intros Hres.
  destruct (aggregate_resolved "max" (createMax None) range σ vs Hres)
    as (σ1 & Hmax & _).
  destruct (aggregate_resolved "min" (createMin None) range σ vs Hres)
    as (σ2 & Hmin & _).
  rewrite runAll_createMax in Hmax. rewrite runAll_createMin in Hmin.
  split.
  - intros Hnone. rewrite runAll_createMax, runAll_createMin, Hnone.
    rewrite Hnone in Hmax, Hmin. split_and!; [done..| |]; eauto.
  - intros first rest Hnums. rewrite Hnums in Hmax, Hmin |- *.
    destruct (max_min_of_numbers first rest)
      as (hi & lo & Hhi & Hlo & Hhi_in & Hlo_in & Hnan & Hnum).
    rewrite Hhi in Hmax. rewrite Hlo in Hmin.
    exists hi, lo, σ1, σ2. split_and!; done.
Qed.


Lemma C9_max_min_witness :
  ∃ (hi lo : float) (σ1 σ2 : Store),
    rangeMax (mkRange 0 0 3 2) None (session sheetResolved)
      = Some (Value (VNum hi), σ1)
    ∧ rangeMin (mkRange 0 0 3 2) None (session sheetResolved)
      = Some (Value (VNum lo), σ2)
    ∧ (lo <=? 2)%float = true ∧ (2 <=? hi)%float = true.
Proof.
  destruct (proj2 (C9_max_min exampleHost (mkRange 0 0 3 2) (session sheetResolved)
                     [VNum 1; VStr ""; VNum 2; VStr ""; VNum 3; VStr ""]
                     ltac:(repeat constructor)) 1%float [2; 3]%float eq_refl)
    as (hi & lo & σ1 & σ2 & Hmax & Hmin & _ & _ & _ & Hnum).
  destruct (Hnum eq_refl) as (_ & _ & Hbounds).
  destruct (Hbounds 2%float) as [Hlo Hhi];
    [change (2%float ∈ [1; 2; 3]%float); rewrite !elem_of_cons; tauto|reflexivity|].
  exists hi, lo, σ1, σ2. split_and!; assumption.
Defined.

(** ** The guarantees at work on the example sheet *)

Lemma cached_answer_reused_witness :
  ∃ σ2,
    exampleRead A1A3 "sum" (session sheetPending)
      = Some (Returned (Pending (FunctionFiberAt 0)), suspended)
    ∧ exampleRead (mkRange 0 0 2 1) "count" (with_sheet sheetResolved suspended)
      = Some (Returned (Value (VNum 2)), σ2)
    ∧ exampleRead (mkRange 0 0 3 1) "sum" σ2
      = Some (Returned (Pending (FunctionFiberAt 0)), σ2).
Proof.
  assert (exampleRead A1A3 "sum" (session sheetPending)
            = Some (Returned (Pending (FunctionFiberAt 0)), suspended)) as Hfirst
    by (vm_compute; reflexivity).
  destruct (exampleRead (mkRange 0 0 2 1) "count" (with_sheet sheetResolved suspended))
    as [[result σ2]|] eqn:Hcount; [|by vm_compute in Hcount].
  assert (result = Returned (Value (VNum 2))) as ->.
  { vm_compute in Hcount. by injection Hcount as <- _. }
  exists σ2. split_and!; [exact Hfirst|reflexivity|].
  apply (cached_answer_reused (H := exampleHost) (T := exampleTypeMaps)
           A1A3 (mkRange 0 0 3 1) "sum"
           (session sheetPending) suspended σ2 (Pending (FunctionFiberAt 0)));
    try reflexivity; try exact Hfirst.
  - unfold operationNames. apply list_elem_of_here.
  - apply (quiet_read (H := exampleHost) (T := exampleTypeMaps) _
             (with_sheet sheetResolved suspended) _ (mkRange 0 0 2 1) "count"
             (Returned (Value (VNum 2)))).
    + apply quiet_sheet, quiet_refl.
    + unfold operationNames. rewrite !elem_of_cons. tauto.
    + exact Hcount.
Defined.

Lemma cache_entries_kept_witness :
  ∃ (result : ReadResult) (σ' : Store),
    exampleRead (mkRange 0 0 2 1) "count" finished = Some (result, σ')
    ∧ cache σ' !! "sum;0;0;3;1" = Some (Value (VNum 6)).
Proof.
  destruct (exampleRead (mkRange 0 0 2 1) "count" finished) as [[result σ']|] eqn:Hread;
    [|by vm_compute in Hread].
  exists result, σ'. split; [reflexivity|].
  apply (cache_entries_kept (T := exampleTypeMaps) (mkRange 0 0 2 1) "count"
           finished σ' result "sum;0;0;3;1" (Value (VNum 6))).
  - unfold operationNames. rewrite !elem_of_cons. tauto.
  - exact Hread.
  - vm_compute. reflexivity.
Defined.

(** ** Cache keys *)

Section Keys.

Lemma append_nil (t : string) : "" +:+ t = t.
Proof. reflexivity. Qed.

Lemma append_cons (c : ascii) (s t : string) :
  String c s +:+ t = String c (s +:+ t).
Proof. reflexivity. Qed.

Lemma append_assoc' (s1 s2 s3 : string) :
  (s1 +:+ s2) +:+ s3 = s1 +:+ (s2 +:+ s3).
Proof.
  induction s1 as [|c s1 IH]; rewrite ?append_nil, ?append_cons; [done|by f_equal].
Qed.

Lemma separator_in_middle (s t : string) : ¬ separator_free (s +:+ ";" +:+ t).
Proof.
  induction s as [|c s IH]; rewrite ?append_nil, ?append_cons, ?append_nil;
    simpl; [|tauto].
  by intros [[] _].
Qed.

(** A string is cut in one way only at its last separator. *)
Lemma split_at_last_separator (s1 s2 t1 t2 : string) :
  separator_free t1 → separator_free t2 →
  s1 +:+ ";" +:+ t1 = s2 +:+ ";" +:+ t2 →
  s1 = s2 ∧ t1 = t2.
Proof.
  intros Ht1 Ht2. revert s2.
  induction s1 as [|c s1 IH]; intros [|c' s2];
    rewrite ?append_nil, ?append_cons, ?append_nil; intros Heq.
  - by simplify_eq.
  - injection Heq as <- ->. by destruct (separator_in_middle s2 t2).
  - injection Heq as -> <-. by destruct (separator_in_middle s1 t1).
  - injection Heq as -> Heq. destruct (IH _ Heq) as [-> ->]. done.
Qed.

Lemma pretty_N_char_separator (x : N) : pretty_N_char x ≠ ";"%char.
Proof. unfold pretty_N_char. by repeat case_match. Qed.

Lemma pretty_N_go_separator_free (x : N) (s : string) :
  separator_free s → separator_free (pretty_N_go x s).
Proof.
  revert s. induction (N.lt_wf_0 x) as [x _ IH]; intros s Hs.
  assert (x = 0 ∨ 0 < x)%N as [->|?] by lia.
  - by rewrite pretty_N_go_0.
  - rewrite pretty_N_go_step by done. apply IH.
    + by apply N.div_lt.
    + split; [apply pretty_N_char_separator|done].
Qed.

Lemma pretty_N_separator_free (x : N) : separator_free (pretty x).
Proof.
  unfold pretty, pretty_N. case_decide.
  - simpl. split; [discriminate|done].
  - by apply pretty_N_go_separator_free.
Qed.

Lemma pretty_Z_separator_free (z : Z) : separator_free (pretty z).
Proof.
  destruct z as [|p|p]; unfold pretty, pretty_Z.
  - simpl. split; [discriminate|done].
  - apply pretty_N_separator_free.
  - rewrite append_cons, append_nil. split; [discriminate|].
    apply pretty_N_separator_free.
Qed.

End Keys.

(** X5.  The cache key determines the property and the geometry: two keys
    are equal only for the same property name and the same four numbers, so
    no two aggregations and no two ranges share a cache slot, whatever the
    property name holds (separators included). *)
Theorem makeCacheKey_inj (range1 range2 : Range) (prop1 prop2 : string) :
  makeCacheKey range1 prop1 = makeCacheKey range2 prop2 ↔
  prop1 = prop2 ∧ range1 = range2.
Proof.
  split; [|by intros [-> ->]].
  unfold makeCacheKey. intros Heq.
  rewrite <- !append_assoc' in Heq. rewrite !(append_assoc' _ ";") in Heq.
  do 4 (apply split_at_last_separator in Heq as [Heq ?%(inj pretty)];
        [|apply pretty_Z_separator_free..]).
  destruct range1, range2; simplify_eq/=. done.
Qed.

(** ** Suspending and resuming *)

Section Resume.
Context {H : Host}.

Lemma app_eq_middle {A : Type} (l1 l2 before after : list A) (x : A) :
  l1 ++ l2 = before ++ x :: after →
  (∃ k, l1 = before ++ x :: k ∧ after = k ++ l2)
  ∨ (∃ k, before = l1 ++ k ∧ l2 = k ++ x :: after).
Proof.
  revert before. induction l1 as [|y l1 IH]; intros before Heq.
  - right. exists before. done.
  - destruct before as [|b before]; simpl in Heq; injection Heq as -> Heq.
    + left. eauto.
    + destruct (IH _ Heq) as [(k & -> & ->)|(k & -> & ->)]; [left|right]; eauto.
Qed.

(** The cells of a row from a cell of it on are that cell and the rest. *)
Lemma rowCells_from (r from to : Z) (before after : list Point) (i j : Z) :
  rowCells r from to = before ++ (i, j) :: after →
  i = r ∧ from ≤ j < to ∧ rowCells r j to = (i, j) :: after.
Proof.
  unfold rowCells.
  remember (Z.to_nat (to - from)) as n eqn:Hn. revert from before Hn.
  induction n as [|n IH]; intros from before Hn Heq.
  - rewrite seqZ_nil in Heq by lia. by destruct before.
  - rewrite seqZ_cons in Heq by lia. rewrite fmap_cons in Heq.
    destruct before as [|b before]; simpl in Heq; injection Heq as Hb Heq.
    + simplify_eq. split_and!; [done|lia..|].
      rewrite (seqZ_cons j) by lia. done.
    + replace (Z.pred (to - from)) with (to - Z.succ from) in Heq by lia.
      destruct (IH (Z.succ from) before) as (? & ? & ?); [lia|done|].
      split_and!; [done|lia..|done].
Qed.

Lemma rows_from (startCol endC : Z) (n : nat) :
  ∀ (start : Z) (before after : list Point) (i j : Z),
    (seqZ start (Z.of_nat n) ≫= λ i, rowCells i startCol endC)
      = before ++ (i, j) :: after →
    start ≤ i < start + Z.of_nat n
    ∧ startCol ≤ j < endC
    ∧ rowCells i j endC
        ++ (seqZ (i + 1) (start + Z.of_nat n - (i + 1)) ≫= λ i, rowCells i startCol endC)
      = (i, j) :: after.
Proof.
  induction n as [|n IH]; intros start before after i j Heq.
  - by destruct before.
  - rewrite seqZ_succ, bind_cons in Heq.
    apply app_eq_middle in Heq as [(k & Hrow & ->)|(k & -> & Hrest)].
    + apply rowCells_from in Hrow as (-> & ? & ->).
      split_and!; [lia..|].
      replace (start + Z.of_nat (S n) - (start + 1)) with (Z.of_nat n) by lia.
      done.
    + apply IH in Hrest as (? & ? & <-).
      split_and!; [lia..|].
      by replace (start + Z.of_nat (S n) - (i + 1))
        with (start + 1 + Z.of_nat n - (i + 1)) by lia.
Qed.

(** The cursor saved on suspension leaves exactly the blocking cell and the
    cells after it to be scanned. *)
Lemma remainingCells_from (range : Range) (row column : Z)
    (before after : list Point) (i j : Z) :
  remainingCells range row column = before ++ (i, j) :: after →
  remainingCells range i j = (i, j) :: after.
Proof.
  unfold remainingCells. intros Heq.
  apply app_eq_middle in Heq as [(k & Hrow & ->)|(k & -> & Hrest)].
  - apply rowCells_from in Hrow as (-> & ? & ->). done.
  - destruct (decide (0 ≤ tlRow range + height range - (row + 1))) as [Hn|Hn].
    + rewrite <- (Z2Nat.id _ Hn) in Hrest.
      apply rows_from in Hrest as (? & ? & <-).
      rewrite Z2Nat.id by done. f_equal. f_equal. f_equal. lia.
    + rewrite seqZ_nil in Hrest by lia. by destruct k.
Qed.

End Resume.

Section ResumeFold.
Context {H : Host}.

Lemma runAll_app (r : FunctionRunner) (vs vs' : list CalcValue) :
  runAll (runAll r vs) vs' = runAll r (vs ++ vs').
Proof. unfold runAll. by rewrite foldl_app. Qed.

(** A fiber that suspends on [(i, j)] and is run again once that cell and
    the cells after it read as values completes with the fold of the values
    before and after the suspension. *)
Lemma runFunc_suspend_resume (a : nat) (σ : Store) (f : FunctionFiber)
    (before after : list Point) (i j : Z) (fb : Fiber) (vs vs' : list CalcValue)
    (rd' : Z → Z → Content) :
  fibers σ !! a = Some f →
  remainingCells (range f) (row f) (column f) = before ++ (i, j) :: after →
  resolved (read σ) before vs →
  read σ i j = Pending fb →
  resolved rd' ((i, j) :: after) vs' →
  let key := makeCacheKey (range f) (state f) in
  let σ1 := mkStore (read σ) (<[key := Pending (FunctionFiberAt a)]> (cache σ))
              (<[a := mkFiber (state f) (range f) i j (runAll (runner f) vs)]> (fibers σ))
              (visited σ ++ before ++ [(i, j)]) in
  let result := Value (outcome (runAll (runner f) (vs ++ vs'))) in
  runFunc a σ = Some (Pending (FunctionFiberAt a), σ1)
  ∧ runFunc a (with_sheet rd' σ1)
    = Some (result,
            mkStore rd' (<[key := result]> (cache σ))
              (<[a := mkFiber (state f) (range f) i j (runAll (runner f) (vs ++ vs'))]>
                 (fibers σ))
              (visited σ ++ before ++ (i, j) :: (i, j) :: after)).
Proof.
  intros Hf Hcells Hbefore Hpending Hafter key σ1 result.
  assert (runFunc a σ = Some (Pending (FunctionFiberAt a), σ1)) as Hfirst.
  { rewrite (runFunc_scan _ _ f), Hcells by done.
    by rewrite (rowMajorScan_blocked _ _ _ _ _ fb vs). }
  split; [done|].
  set (f1 := mkFiber (state f) (range f) i j (runAll (runner f) vs)).
  rewrite (runFunc_scan _ _ f1) by (by eapply lookup_insert_fiber).
  cbn [with_sheet read range row column runner f1 state].
  rewrite (remainingCells_from _ _ _ _ _ _ _ Hcells).
  rewrite (rowMajorScan_resolved _ _ vs') by done.
  rewrite runAll_app. unfold resumed, result, key. cbn -[makeCacheKey].
  rewrite insert_insert_eq, list_insert_insert_eq.
  rewrite <- !app_assoc. reflexivity.
Qed.

End ResumeFold.

(** X6.  Suspending does not lose or repeat work.  A fiber whose scan blocks
    on cell [(i, j)] returns Pending; run again when that cell and the cells
    after it read as values, it completes with the fold over the values read
    before the suspension followed by the values read after it, stores that
    result under its key, and has read every cell once except the blocking
    cell, which it read twice.  If the cells read before the suspension still
    read the same on the later sheet, this is the value one uninterrupted
    run on that sheet returns. *)
Theorem resume_continues_fold (H : Host) (a : nat) (σ : Store) (f : FunctionFiber)
    (before after : list Point) (i j : Z) (fb : Fiber) (vs vs' : list CalcValue)
    (rd' : Z → Z → Content) :
  fibers σ !! a = Some f →
  remainingCells (range f) (row f) (column f) = before ++ (i, j) :: after →
  resolved (read σ) before vs →
  read σ i j = Pending fb →
  resolved rd' ((i, j) :: after) vs' →
  let result := Value (outcome (runAll (runner f) (vs ++ vs'))) in
  ∃ σ1 σ2,
    runFunc a σ = Some (Pending (FunctionFiberAt a), σ1)
    ∧ runFunc a (with_sheet rd' σ1) = Some (result, σ2)
    ∧ cache σ2 !! makeCacheKey (range f) (state f) = Some result
    ∧ visited σ2 = visited σ ++ before ++ (i, j) :: (i, j) :: after
    ∧ (resolved rd' before vs →
       ∃ σ3, runFunc a (with_sheet rd' σ) = Some (result, σ3)).
Proof.
  intros Hf Hcells Hbefore Hpending Hafter result.
  destruct (runFunc_suspend_resume a σ f before after i j fb vs vs' rd')
    as [Hfirst Hsecond]; try done.
  eexists _, _. split_and!; [exact Hfirst|exact Hsecond|..].
  - cbn -[makeCacheKey]. by rewrite lookup_insert_eq.
  - done.
  - intros Hsame. rewrite (runFunc_scan _ _ f) by done.
    cbn [with_sheet read]. rewrite Hcells.
    rewrite (rowMajorScan_resolved _ _ (vs ++ vs')); [eauto|].
    by apply Forall2_app.
Qed.

Lemma resume_continues_fold_witness :
  ∃ σ1 σ2 : Store,
    runFunc 0 started = Some (Pending (FunctionFiberAt 0), σ1)
    ∧ runFunc 0 (with_sheet sheetResolved σ1) = Some (Value (VNum 6), σ2).
Proof.
  destruct (resume_continues_fold exampleHost 0%nat started
              (mkFiber "sum" A1A3 0 0 (createSum 0))
              [(0, 0); (1, 0)] [] 2 0 (FormulaCell 2 0)
              [VNum 1; VNum 2] [VNum 3] sheetResolved)
    as (σ1 & σ2 & Hfirst & Hsecond & _).
  - reflexivity.
  - reflexivity.
  - repeat constructor.
  - reflexivity.
  - repeat constructor.
  - exists σ1, σ2. split; [exact Hfirst|exact Hsecond].
Defined.

(** X7.  The whole life of a request for a property written as an operation
    name, with no entry in the cache: the read creates a fiber at the next
    free address and returns its Pending marker when the scan blocks; the
    host resumes that fiber with [runFunc] once the blocking cell and the
    cells after it read as values, which returns the fold of the operation's
    runner over all the values; and the next read of the property returns
    that value from the cache and changes nothing. *)
Theorem read_resume_read (H : Host) (T : TypeMaps) (range : Range) (name : string)
    (r : FunctionRunner) (σ : Store)
    (before after : list Point) (i j : Z) (fb : Fiber) (vs vs' : list CalcValue)
    (rd' : Z → Z → Content) :
  initialRunner name = Some r →
  cache σ !! makeCacheKey range name = None →
  cellsOf range = before ++ (i, j) :: after →
  resolved (read σ) before vs →
  read σ i j = Pending fb →
  resolved rd' ((i, j) :: after) vs' →
  let a := length (fibers σ) in
  let result := Value (outcome (runAll r (vs ++ vs'))) in
  ∃ σ1 σ2,
    Readable_read range name σ = Some (Returned (Pending (FunctionFiberAt a)), σ1)
    ∧ runFunc a (with_sheet rd' σ1) = Some (result, σ2)
    ∧ Readable_read range name σ2 = Some (Returned result, σ2).
Proof.
  intros Hr Hmiss Hcells Hbefore Hpending Hafter a result.
  destruct (aggregations_operation name (initialRunner_operation _ _ Hr))
    as (r' & Hr' & Hfn & _).
  assert (r' = r) as -> by congruence.
  set (f := mkFiber name range (tlRow range) (tlCol range) r).
  set (σ0 := mkStore (read σ) (cache σ) (fibers σ ++ [f]) (visited σ)).
  destruct (runFunc_suspend_resume a σ0 f before after i j fb vs vs' rd')
    as [Hfirst Hsecond]; try done.
  { by apply list_lookup_middle. }
  eexists _, _. split_and!.
  - rewrite (read_aggregation _ _ _ _ Hfn), Hmiss.
    unfold aggregate, makePendingFunction. fold a f σ0. by rewrite Hfirst.
  - exact Hsecond.
  - rewrite (read_aggregation _ _ _ _ Hfn).
    cbn -[makeCacheKey]. by rewrite lookup_insert_eq.
Qed.

Lemma read_resume_read_witness :
  ∃ σ1 σ2 : Store,
    exampleRead A1A3 "sum" (session sheetPending)
      = Some (Returned (Pending (FunctionFiberAt 0)), σ1)
    ∧ runFunc 0 (with_sheet sheetResolved σ1) = Some (Value (VNum 6), σ2)
    ∧ exampleRead A1A3 "sum" σ2 = Some (Returned (Value (VNum 6)), σ2).
Proof.
  exact (read_resume_read exampleHost exampleTypeMaps A1A3 "sum" (createSum 0)
           (session sheetPending) [(0, 0); (1, 0)] [] 2 0 (FormulaCell 2 0)
           [VNum 1; VNum 2] [VNum 3] sheetResolved
           eq_refl eq_refl eq_refl
           ltac:(repeat constructor) eq_refl ltac:(repeat constructor)).
Defined.

(** X8.  Completion does not advance the cursor: when every cell a fiber has
    left reads as a value, [runFunc] completes, and running the same fiber
    once more reads those same cells again and feeds their values to the
    runner a second time, replacing the cached result by the fold over the
    values taken twice. *)
Theorem runFunc_again_feeds_twice (H : Host) (a : nat) (σ : Store)
    (f : FunctionFiber) (vs : list CalcValue) :
  fibers σ !! a = Some f →
  resolved (read σ) (remainingCells (range f) (row f) (column f)) vs →
  let cells := remainingCells (range f) (row f) (column f) in
  let key := makeCacheKey (range f) (state f) in
  ∃ σ1 σ2,
    runFunc a σ = Some (Value (outcome (runAll (runner f) vs)), σ1)
    ∧ runFunc a σ1 = Some (Value (outcome (runAll (runner f) (vs ++ vs))), σ2)
    ∧ visited σ2 = visited σ ++ cells ++ cells
    ∧ cache σ2 !! key = Some (Value (outcome (runAll (runner f) (vs ++ vs)))).
Proof.
  intros Hf Hres cells key.
  eexists _, _. split_and!.
  - rewrite (runFunc_scan _ _ f) by done. fold cells.
    by rewrite (rowMajorScan_resolved _ _ vs).
  - rewrite (runFunc_scan _ _ (set_runner (runAll (runner f) vs) f))
      by (by eapply lookup_insert_fiber).
    cbn [read range row column runner set_runner]. fold cells.
    rewrite (rowMajorScan_resolved _ _ vs) by done.
    by rewrite runAll_app.
  - cbn. by rewrite <- app_assoc.
  - cbn -[makeCacheKey]. by rewrite lookup_insert_eq.
Qed.

Lemma runFunc_again_feeds_twice_witness :
  ∃ σ1 σ2 : Store,
    runFunc 0 resumable = Some (Value (VNum 6), σ1)
    ∧ runFunc 0 σ1 = Some (Value (VNum 9), σ2).
Proof.
  destruct (runFunc_again_feeds_twice exampleHost 0%nat resumable suspendedSum
              [VNum 3] eq_refl ltac:(repeat constructor))
    as (σ1 & σ2 & Hfirst & Hsecond & _).
  exists σ1, σ2. split; [exact Hfirst|exact Hsecond].
Defined.

(** ** What a run and a read leave alone *)

Section Frame.
Context {H : Host}.

Lemma rowMajorScan_seen (rd : Z → Z → Content) (cells : list Point)
    (r : FunctionRunner) :
  ∃ rest, cells = (rowMajorScan rd cells r).1.2 ++ rest.
Proof.
  revert r. induction cells as [|[i j] cells IH]; intros r; simpl.
  - by exists [].
  - destruct (rd i j) as [v|fb]; simpl.
    + destruct (IH (applyRun r v)) as [rest Hrest].
      destruct (rowMajorScan rd cells (applyRun r v)) as [[r' seen] blocked].
      exists rest. simpl in *. by rewrite <- Hrest.
    + by exists cells.
Qed.

Lemma runFunc_effect (a : nat) (σ σ' : Store) (f : FunctionFiber)
    (result : Content) :
  fibers σ !! a = Some f →
  runFunc a σ = Some (result, σ') →
  ∃ f' seen rest,
    read σ' = read σ
    ∧ cache σ' = <[makeCacheKey (range f) (state f) := result]> (cache σ)
    ∧ fibers σ' = <[a := f']> (fibers σ)
    ∧ state f' = state f ∧ range f' = range f
    ∧ visited σ' = visited σ ++ seen
    ∧ remainingCells (range f) (row f) (column f) = seen ++ rest
    ∧ (result = Pending (FunctionFiberAt a) ∨ ∃ v, result = Value v).
Proof.
  intros Hf. rewrite (runFunc_scan _ _ f) by done.
  destruct (rowMajorScan_seen (read σ)
              (remainingCells (range f) (row f) (column f)) (runner f))
    as [rest Hrest].
  destruct (rowMajorScan _ _ _) as [[r seen] [[i j]|]]; intros [= <- <-];
    eexists _, seen, rest; split_and!; eauto.
Qed.

End Frame.

(** X9.  A run of fiber [a] touches nothing but that fiber and its own cache
    slot: the sheet is not changed, no fiber is added or removed, every other
    fiber is as before, fiber [a] keeps its [state] and [range], every cache
    entry under another key is as before, the entry under the fiber's key is
    exactly what the run returned, and the cells read are a prefix of the
    cells the fiber had left. *)
Theorem runFunc_frame (H : Host) (a : nat) (σ σ' : Store) (f : FunctionFiber)
    (result : Content) :
  fibers σ !! a = Some f →
  runFunc a σ = Some (result, σ') →
  read σ' = read σ
  ∧ length (fibers σ') = length (fibers σ)
  ∧ (∀ b, b ≠ a → fibers σ' !! b = fibers σ !! b)
  ∧ (∃ f', fibers σ' !! a = Some f' ∧ state f' = state f ∧ range f' = range f)
  ∧ (∀ k, k ≠ makeCacheKey (range f) (state f) → cache σ' !! k = cache σ !! k)
  ∧ cache σ' !! makeCacheKey (range f) (state f) = Some result
  ∧ (∃ seen rest,
       visited σ' = visited σ ++ seen
       ∧ remainingCells (range f) (row f) (column f) = seen ++ rest).
Proof.
  intros Hf Hrun.
  destruct (runFunc_effect a σ σ' f result Hf Hrun)
    as (f' & seen & rest & Hread & Hcache & Hfibers & Hstate & Hrange & Hvis
        & Hcells & _).
  rewrite Hcache, Hfibers. split_and!.
  - done.
  - apply length_insert.
  - intros b Hb. by apply list_lookup_insert_ne.
  - exists f'. split_and!; [by eapply lookup_insert_fiber|done..].
  - intros k Hk. by apply lookup_insert_ne.
  - apply lookup_insert_eq.
  - eauto.
Qed.

Lemma runFunc_frame_witness :
  runFunc 0 started = Some (Pending (FunctionFiberAt 0), suspended)
  ∧ cache suspended !! "sum;0;0;3;1" = Some (Pending (FunctionFiberAt 0)).
Proof.
  assert (runFunc 0 started = Some (Pending (FunctionFiberAt 0), suspended)) as Hrun
    by (vm_compute; reflexivity).
  split; [exact Hrun|].
  destruct (runFunc_frame exampleHost 0%nat started suspended
              (mkFiber "sum" A1A3 0 0 (createSum 0)) _ eq_refl Hrun)
    as (_ & _ & _ & _ & _ & Hcache & _).
  exact Hcache.
Defined.

Section ReadFrame.
Context {H : Host} {T : TypeMaps}.

Lemma aggregate_fresh_effect (name : string) (r : FunctionRunner) (range_ : Range)
    (σ σ' : Store) (result : Content) :
  aggregate name r range_ None σ = Some (result, σ') →
  ∃ f',
    read σ' = read σ
    ∧ cache σ' = <[makeCacheKey range_ name := result]> (cache σ)
    ∧ fibers σ' = fibers σ ++ [f']
    ∧ state f' = name ∧ range f' = range_
    ∧ (result = Pending (FunctionFiberAt (length (fibers σ))) ∨ ∃ v, result = Value v).
Proof.
  unfold aggregate, makePendingFunction. intros Hrun.
  eapply runFunc_effect in Hrun as (f' & _ & _ & ? & ? & Hfibers & ? & ? & _ & _ & ?);
    [|by apply list_lookup_middle].
  exists f'. split_and!; try done.
  simpl in Hfibers. rewrite Hfibers.
  rewrite insert_app_r_alt by done. by rewrite Nat.sub_diag.
Qed.

(** A read of an aggregation property, under either spelling, returns the
    cache entry of its key or runs one new fiber. *)
Lemma read_operation_cases (range_ : Range) (name message : string) (σ σ' : Store)
    (result : ReadResult) :
  name ∈ operationNames →
  message = name ∨ message = toUpperCase name →
  Readable_read range_ message σ = Some (result, σ') →
  (∃ content,
     cache σ !! makeCacheKey range_ message = Some content
     ∧ result = Returned content ∧ σ' = σ)
  ∨ (∃ r content,
       cache σ !! makeCacheKey range_ message = None
       ∧ initialRunner name = Some r
       ∧ result = Returned content
       ∧ aggregate name r range_ None σ = Some (content, σ')).
Proof.
  intros Hname Hmessage.
  destruct (aggregations_operation name Hname) as (r & Hr & Hlower & Hupper).
  assert (aggregations message = Some (Own (aggregate name r))) as Hfn
    by (by destruct Hmessage as [-> | ->]).
  rewrite (read_aggregation _ _ _ _ Hfn).
  destruct (cache σ !! makeCacheKey range_ message) as [content|] eqn:Hc.
  - intros [= <- <-]. left. eauto.
  - destruct (aggregate name r range_ None σ) as [[content σ'']|] eqn:Hrun;
      intros [= <- <-]. right. eauto 10.
Qed.

End ReadFrame.

(** X10.  A read of an aggregation property, written as the operation name
    or as its upper-case alias, never resumes a fiber: the sheet and every
    fiber already in the heap, suspended or not, are left exactly as they
    were, and every cache entry under a key other than the operation's
    lower-case key is kept.  The read either changes nothing at all or adds
    one new fiber for this range whose [state] is the lower-case name. *)
Theorem read_never_resumes (H : Host) (T : TypeMaps) (range_ : Range)
    (name message : string) (σ σ' : Store) (result : ReadResult) :
  name ∈ operationNames →
  message = name ∨ message = toUpperCase name →
  Readable_read range_ message σ = Some (result, σ') →
  read σ' = read σ
  ∧ (∀ b f, fibers σ !! b = Some f → fibers σ' !! b = Some f)
  ∧ (σ' = σ
     ∨ ∃ f', fibers σ' = fibers σ ++ [f'] ∧ state f' = name ∧ range f' = range_)
  ∧ (∀ k, k ≠ makeCacheKey range_ name → cache σ' !! k = cache σ !! k).
Proof.
  intros Hname Hmessage Hread.
  destruct (read_operation_cases _ _ _ _ _ _ Hname Hmessage Hread)
    as [(content & _ & _ & ->)|(r & content & _ & _ & _ & Hrun)].
  - split_and!; auto.
  - apply aggregate_fresh_effect in Hrun
      as (f' & Hrd & Hcache & Hfibers & Hstate & Hrange & _).
    rewrite Hcache, Hfibers. split_and!.
    + done.
    + intros b f Hb. by apply lookup_app_l_Some.
    + right. eauto.
    + intros k Hk. by apply lookup_insert_ne.
Qed.

Lemma read_never_resumes_witness :
  ∃ (result : ReadResult) (σ' : Store),
    exampleRead A1A3 "SUM" resumable = Some (result, σ')
    ∧ fibers σ' !! 0%nat = Some suspendedSum.
Proof.
  destruct (exampleRead A1A3 "SUM" resumable) as [[result σ']|] eqn:Hread;
    [|by vm_compute in Hread].
  exists result, σ'. split; [reflexivity|].
  destruct (read_never_resumes exampleHost exampleTypeMaps A1A3 "sum" "SUM"
              resumable σ' result) as (_ & Hkept & _).
  - unfold operationNames. apply list_elem_of_here.
  - right. reflexivity.
  - exact Hread.
  - apply Hkept. reflexivity.
Defined.

(** ** The cache owns the fibers it marks Pending *)

Section Ownership.
Context {H : Host} {T : TypeMaps}.

Lemma runFunc_owns (a : nat) (σ σ' : Store) (f : FunctionFiber) (result : Content) :
  cache_owns_fibers σ →
  fibers σ !! a = Some f →
  runFunc a σ = Some (result, σ') →
  cache_owns_fibers σ'.
Proof.
  intros Hown Hf Hrun.
  destruct (runFunc_effect a σ σ' f result Hf Hrun)
    as (f' & _ & _ & _ & Hcache & Hfibers & Hstate & Hrange & _ & _ & Hresult).
  intros k b. rewrite Hcache, Hfibers.
  destruct (decide (makeCacheKey (range f) (state f) = k)) as [<-|Hk].
  - rewrite lookup_insert_eq. intros [= ->].
    destruct Hresult as [[= <-]|[v [=]]].
    exists f'. split; [by eapply lookup_insert_fiber|congruence].
  - rewrite lookup_insert_ne by done. intros Hb.
    destruct (Hown k b Hb) as (f0 & Hf0 & Hkey).
    exists f0. split; [|done].
    rewrite list_lookup_insert_ne; [done|]. intros <-. congruence.
Qed.

Lemma allocation_owns (σ : Store) (f : FunctionFiber) :
  cache_owns_fibers σ →
  cache_owns_fibers (mkStore (read σ) (cache σ) (fibers σ ++ [f]) (visited σ)).
Proof.
  intros Hown k b Hb. destruct (Hown k b Hb) as (f0 & Hf0 & Hkey).
  exists f0. split; [|done]. by apply lookup_app_l_Some.
Qed.

End Ownership.

(** X11.  The cache owns the fibers it marks Pending.  In a fresh session,
    and after any sequence of reads of aggregation properties (under either
    spelling) and of runs of fibers of the heap, every Pending marker of a
    Function Fiber in the cache names a fiber that is in the heap and whose
    [state] and [range] rebuild the marker's key; so [runFunc] on the fiber
    of any such marker returns, and stores what it returns under that same
    key. *)
Theorem cache_owns_fibers_invariant (H : Host) (T : TypeMaps) :
  (∀ rd, cache_owns_fibers (session rd))
  ∧ (∀ rd σ, cache_owns_fibers σ → cache_owns_fibers (with_sheet rd σ))
  ∧ (∀ a σ σ' f result,
       cache_owns_fibers σ → fibers σ !! a = Some f →
       runFunc a σ = Some (result, σ') → cache_owns_fibers σ')
  ∧ (∀ range_ name message σ σ' result,
       cache_owns_fibers σ → name ∈ operationNames →
       message = name ∨ message = toUpperCase name →
       Readable_read range_ message σ = Some (result, σ') →
       cache_owns_fibers σ')
  ∧ (∀ σ k a,
       cache_owns_fibers σ →
       cache σ !! k = Some (Pending (FunctionFiberAt a)) →
       ∃ result σ',
         runFunc a σ = Some (result, σ') ∧ cache σ' !! k = Some result).
Proof.
  split_and!.
  - intros rd k a Hk.
    change (cache (session rd)) with (∅ : gmap string Content) in Hk.
    by rewrite lookup_empty in Hk.
  - intros rd σ Hown. exact Hown.
  - intros a σ σ' f result. apply runFunc_owns.
  - intros range_ name message σ σ' result Hown Hname Hmessage Hread.
    destruct (read_operation_cases _ _ _ _ _ _ Hname Hmessage Hread)
      as [(content & _ & _ & ->)|(r & content & _ & _ & _ & Hrun)]; [done|].
    unfold aggregate, makePendingFunction in Hrun.
    eapply runFunc_owns; [by apply allocation_owns| |exact Hrun].
    by apply list_lookup_middle.
  - intros σ k a Hown Hk. destruct (Hown k a Hk) as (f & Hf & <-).
    destruct (runFunc a σ) as [[result σ']|] eqn:Hrun.
    + exists result, σ'. split; [done|].
      destruct (runFunc_effect a σ σ' f result Hf Hrun)
        as (_ & _ & _ & _ & Hcache & _).
      by rewrite Hcache, lookup_insert_eq.
    + by rewrite (runFunc_scan _ _ f) in Hrun.
Qed.

Lemma cache_owns_fibers_invariant_witness :
  ∃ (result : Content) (σ' : Store),
    runFunc 0 suspended = Some (result, σ')
    ∧ cache σ' !! "sum;0;0;3;1" = Some result.
Proof.
  apply (proj2 (proj2 (proj2 (proj2
           (cache_owns_fibers_invariant exampleHost exampleTypeMaps))))).
  - intros k a Hk.
    destruct (decide (k = "sum;0;0;3;1")) as [->|Hne].
    + exists suspendedSum. split; [|reflexivity].
      vm_compute in Hk. injection Hk as <-. reflexivity.
    + unfold suspended in Hk. simpl in Hk.
      by rewrite lookup_singleton_ne in Hk.
  - reflexivity.
Defined.

(** ** The cells of a range *)

Section Cells.
Context {H : Host}.

Lemma elem_of_rowCells_iff (p : Point) (i from to : Z) :
  p ∈ rowCells i from to ↔ p.1 = i ∧ from ≤ p.2 < to.
Proof.
  unfold rowCells. rewrite list_elem_of_fmap. setoid_rewrite elem_of_seqZ.
  destruct p as [pi pj]. simpl. split.
  - intros (j & [= -> ->] & ?). lia.
  - intros (-> & ?). exists pj. split; [done|lia].
Qed.

Lemma elem_of_cellsOf (p : Point) (range_ : Range) :
  p ∈ cellsOf range_ ↔
  tlCol range_ ≤ p.2 < tlCol range_ + width range_
  ∧ (p.1 = tlRow range_ ∨ tlRow range_ < p.1 < tlRow range_ + height range_).
Proof.
  unfold cellsOf, remainingCells.
  rewrite elem_of_app, list_elem_of_bind, elem_of_rowCells_iff.
  setoid_rewrite elem_of_rowCells_iff. setoid_rewrite elem_of_seqZ.
  destruct p as [pi pj]. simpl. split.
  - intros [(? & ?)|(i & (? & ?) & ?)]; split; lia.
  - intros (? & [? | ?]); [left; done|].
    right. exists pi. split_and!; try done; lia.
Qed.

Lemma length_rowCells (i from to : Z) :
  length (rowCells i from to) = Z.to_nat (to - from).
Proof. unfold rowCells. by rewrite length_fmap, length_seqZ. Qed.

Lemma length_rows (startCol endC : Z) (rows : list Z) :
  length (rows ≫= λ i, rowCells i startCol endC)
    = (length rows * Z.to_nat (endC - startCol))%nat.
Proof.
  induction rows as [|i rows IH]; [done|].
  rewrite bind_cons, length_app, length_rowCells, IH. simpl. lia.
Qed.

Lemma length_cellsOf (range_ : Range) :
  1 ≤ height range_ →
  length (cellsOf range_) = Z.to_nat (height range_ * width range_).
Proof.
  intros Hh. unfold cellsOf, remainingCells.
  rewrite length_app, length_rowCells, length_rows, length_seqZ.
  replace (tlCol range_ + width range_ - tlCol range_) with (width range_) by lia.
  replace (tlRow range_ + height range_ - (tlRow range_ + 1))
    with (height range_ - 1) by lia.
  destruct (decide (0 ≤ width range_)).
  - rewrite <- Z2Nat.inj_mul by lia. rewrite <- Z2Nat.inj_add by nia.
    f_equal. ring.
  - rewrite (Z2Nat.nonpos (width range_)) by lia.
    rewrite (Z2Nat.nonpos (height range_ * width range_)) by nia. lia.
Qed.

End Cells.

(** X12.  A fresh aggregation over the Range that [fromReference] builds
    from two corners reads exactly the cells of the rectangle the corners
    span, borders included, each of them once, whichever corner comes first:
    (|row1 - row2| + 1) * (|col1 - col2| + 1) reads in all, when every cell
    reads as a value. *)
Theorem aggregation_reads_rectangle (H : Host) (name : string) (r : FunctionRunner)
    (r1 c1 r2 c2 : Z) (σ : Store) (vs : list CalcValue) :
  let range_ := fromReference (mkReference r1 c1 (Some r2) (Some c2)) in
  resolved (read σ) (cellsOf range_) vs →
  ∃ σ' seen,
    aggregate name r range_ None σ = Some (Value (outcome (runAll r vs)), σ')
    ∧ visited σ' = visited σ ++ seen
    ∧ NoDup seen
    ∧ (∀ i j, (i, j) ∈ seen ↔
         Z.min r1 r2 ≤ i ≤ Z.max r1 r2 ∧ Z.min c1 c2 ≤ j ≤ Z.max c1 c2)
    ∧ length seen = Z.to_nat ((Z.abs (r1 - r2) + 1) * (Z.abs (c1 - c2) + 1)).
Proof.
  intros range_ Hres.
  destruct (aggregate_resolved name r range_ σ vs Hres) as (σ' & Hrun & _ & Hvis).
  exists σ', (cellsOf range_). split_and!; [done..| | |].
  - apply NoDup_remainingCells.
  - intros i j. rewrite elem_of_cellsOf. unfold range_, fromReference. simpl.
    destruct (Z.ltb_spec r1 r2), (Z.ltb_spec c1 c2); lia.
  - rewrite length_cellsOf; unfold range_, fromReference; simpl; [done|lia].
Qed.

Lemma aggregation_reads_rectangle_witness :
  ∃ (σ' : Store) (seen : list Point),
    aggregate "sum" (createSum 0)
        (fromReference (mkReference 2 0 (Some 0) (Some 0))) None
        (session sheetResolved)
      = Some (Value (VNum 6), σ')
    ∧ visited σ' = seen
    ∧ length seen = 3%nat.
Proof.
  destruct (aggregation_reads_rectangle exampleHost "sum" (createSum 0) 2 0 0 0
              (session sheetResolved) [VNum 1; VNum 2; VNum 3]
              ltac:(repeat constructor))
    as (σ' & seen & Hrun & Hvis & _ & _ & Hlen).
  exists σ', seen. split_and!; [exact Hrun|exact Hvis|exact Hlen].
Defined.

(** X13.  Ranges without cells.  With a width of 0 or less no cell is read
    and a fresh aggregation completes at once with the finisher's result on
    the initial accumulator, whatever the sheet holds.  With a positive width
    and a height of 1 or less - 0 and negative heights included - the row of
    the anchor is scanned all the same, and only that row. *)
Theorem degenerate_ranges (H : Host) (name : string) (r : FunctionRunner)
    (range_ : Range) (σ : Store) :
  (width range_ ≤ 0 →
   aggregate name r range_ None σ
     = Some (Value (outcome r),
             mkStore (read σ) (<[makeCacheKey range_ name := Value (outcome r)]> (cache σ))
               (fibers σ ++ [mkFiber name range_ (tlRow range_) (tlCol range_) r])
               (visited σ)))
  ∧ (height range_ ≤ 1 →
     cellsOf range_ = rowCells (tlRow range_) (tlCol range_) (tlCol range_ + width range_)
     ∧ ∀ vs,
         resolved (read σ)
           (rowCells (tlRow range_) (tlCol range_) (tlCol range_ + width range_)) vs →
         ∃ σ',
           aggregate name r range_ None σ = Some (Value (outcome (runAll r vs)), σ')
           ∧ visited σ' = visited σ
               ++ rowCells (tlRow range_) (tlCol range_) (tlCol range_ + width range_)).
Proof.
  split.
  - intros Hw. rewrite aggregate_fresh.
    assert (cellsOf range_ = []) as ->.
    { apply elem_of_nil_inv. intros p. rewrite elem_of_cellsOf. lia. }
    cbn -[makeCacheKey]. rewrite app_nil_r.
    rewrite insert_app_r_alt by done. by rewrite Nat.sub_diag.
  - intros Hh.
    assert (cellsOf range_
            = rowCells (tlRow range_) (tlCol range_) (tlCol range_ + width range_))
      as Hcells.
    { unfold cellsOf, remainingCells. rewrite seqZ_nil by lia. apply app_nil_r. }
    split; [done|]. intros vs Hres. rewrite <- Hcells in Hres |- *.
    destruct (aggregate_resolved name r range_ σ vs Hres) as (σ' & ? & _ & ?).
    eauto.
Qed.

Lemma degenerate_ranges_witness :
  ∃ σ' : Store,
    aggregate "sum" (createSum 0) (mkRange 2 0 0 1) None (session sheetPending)
      = Some (Pending (FunctionFiberAt 0), σ')
    ∧ aggregate "sum" (createSum 0) (mkRange 2 0 3 0) None (session sheetPending)
      = Some (Value (VNum 0),
              mkStore sheetPending {[ "sum;2;0;3;0" := Value (VNum 0) ]}
                [mkFiber "sum" (mkRange 2 0 3 0) 2 0 (createSum 0)] []).
Proof.
  eexists. split; [vm_compute; reflexivity|].
  rewrite (proj1 (degenerate_ranges exampleHost "sum" (createSum 0) (mkRange 2 0 3 0)
                    (session sheetPending))) by (simpl; lia).
  vm_compute. reflexivity.
Defined.

(** X14.  Aggregations over nothing of their type.  When every cell of a
    range reads as a value and none is a number, the sum is 0, the product
    is 1 and the count is 0; when none is a string, the concatenation is the
    empty string.  Cells of other types do not make the fold fail. *)
Theorem aggregations_over_no_input (H : Host) (range_ : Range) (σ : Store)
    (vs : list CalcValue) :
  resolved (read σ) (cellsOf range_) vs →
  (numbers vs = [] →
     (∃ σ', rangeSum range_ None σ = Some (Value (VNum 0), σ'))
     ∧ (∃ σ', rangeProduct range_ None σ = Some (Value (VNum 1), σ'))
     ∧ (∃ σ', rangeCount range_ None σ = Some (Value (VNum 0), σ')))
  ∧ (strings vs = [] →
     ∃ σ', rangeConcat range_ None σ = Some (Value (VStr ""), σ')).
Proof.
  intros Hres. split.
  - intros Hnone. split_and!.
    + destruct (aggregate_resolved "sum" (createSum 0) range_ σ vs Hres)
        as (σ' & Hrun & _). rewrite runAll_createSum, Hnone in Hrun. eauto.
    + destruct (aggregate_resolved "product" (createProduct 1) range_ σ vs Hres)
        as (σ' & Hrun & _). rewrite runAll_createProduct, Hnone in Hrun. eauto.
    + destruct (aggregate_resolved "count" (createCount 0) range_ σ vs Hres)
        as (σ' & Hrun & _). rewrite runAll_createCount, Hnone in Hrun. eauto.
  - intros Hnone.
    destruct (aggregate_resolved "concat" (createConcat "") range_ σ vs Hres)
      as (σ' & Hrun & _). rewrite runAll_createConcat, Hnone in Hrun. eauto.
Qed.

Lemma aggregations_over_no_input_witness :
  ∃ σ' : Store,
    rangeProduct (mkRange 0 1 2 2) None (session sheetResolved)
      = Some (Value (VNum 1), σ').
Proof.
  destruct (proj1 (aggregations_over_no_input exampleHost (mkRange 0 1 2 2)
                     (session sheetResolved) [VStr ""; VStr ""; VStr ""; VStr ""]
                     ltac:(repeat constructor)) eq_refl)
    as (_ & Hproduct & _).
  exact Hproduct.
Defined.

(** ** TreeShape: the links of a tree *)

Section TreeAlignment.
Import TreeShape.
Context {E : Environment}.

Lemma toIndex_aligned (node : Z) : alignedIndex (Some (toIndex node)).
Proof. intros z [= <-]. unfold toIndex. apply Z.mod_mul. done. Qed.

Lemma none_aligned : alignedIndex (Some TreeNodeIndex_none).
Proof. intros z [= <-]. unfold TreeNodeIndex_none. apply Z.mod_mul. done. Qed.

Lemma getIndex_aligned (field : ShapeFieldOffset) (node : option Z)
    (s : gmap (option Z) Z) :
  aligned s → alignedIndex (getIndex field node s).
Proof. intros Hs z Hz. by eapply Hs. Qed.

Lemma setIndex_aligned (field : ShapeFieldOffset) (node value : option Z)
    (s : gmap (option Z) Z) :
  aligned s → alignedIndex value → aligned (setIndex field node value s).
Proof.
  intros Hs Hv k v. unfold setIndex. destruct value as [value|].
  - rewrite lookup_insert. case_decide; [|by apply Hs].
    intros [= <-]. by apply Hv.
  - rewrite lookup_delete. case_decide; [done|by apply Hs].
Qed.

Lemma toNode_toIndex (node : Z) : toNode (Some (toIndex node)) = Some node.
Proof.
  unfold toNode, toIndex, fieldCount. rewrite decide_True by (by apply Z.mod_mul).
  by rewrite Z.div_mul.
Qed.

Lemma toNode_none : toNode (Some TreeNodeIndex_none) = Some TreeNode_none.
Proof. apply toNode_toIndex. Qed.

Lemma toNode_is_none (index : option Z) :
  toNode index = Some TreeNode_none ↔ index = Some TreeNodeIndex_none.
Proof.
  split; [|intros ->; apply toNode_none].
  destruct index as [z|]; [|done]. unfold toNode, TreeNodeIndex_none, fieldCount.
  case_decide as Hz; [|done]. intros [= <-]. f_equal.
  pose proof (Z.div_mod z 5). lia.
Qed.

End TreeAlignment.

Section TreeSlots.
Import TreeShape.
Context {E : Environment}.

Lemma toIndex_mod (node : Z) : toIndex node `mod` fieldCount = 0.
Proof. unfold toIndex. by apply Z.mod_mul. Qed.

Lemma getIndex_setIndex_same (f : ShapeFieldOffset) (n value : option Z)
    (s : gmap (option Z) Z) :
  getIndex f n (setIndex f n value s) = value.
Proof.
  unfold getIndex, setIndex. destruct value.
  - apply lookup_insert_eq.
  - apply lookup_delete_eq.
Qed.

Lemma getIndex_setIndex_key (f g : ShapeFieldOffset) (n m value : option Z)
    (s : gmap (option Z) Z) :
  (λ x, x + offset g) <$> m ≠ (λ x, x + offset f) <$> n →
  getIndex f n (setIndex g m value s) = getIndex f n s.
Proof.
  intros Hne. unfold getIndex, setIndex. destruct value.
  - by apply lookup_insert_ne.
  - by apply lookup_delete_ne.
Qed.

(** Slots of different fields never coincide: indices are multiples of
    five and the offsets are below five. *)
Lemma getIndex_setIndex_field (f g : ShapeFieldOffset) (a : Z) (m value : option Z)
    (s : gmap (option Z) Z) :
  f ≠ g → a `mod` fieldCount = 0 → alignedIndex m →
  getIndex f (Some a) (setIndex g m value s) = getIndex f (Some a) s.
Proof.
  intros Hfg Ha Hm. apply getIndex_setIndex_key.
  destruct m as [b|]; [|done]. simpl. intros [= Heq].
  specialize (Hm b eq_refl). unfold fieldCount in *.
  destruct f, g; simpl in Heq; try done;
    revert Ha Hm; Z.div_mod_to_equations; lia.
Qed.

Lemma getIndex_setIndex_node (f : ShapeFieldOffset) (a b : Z) (value : option Z)
    (s : gmap (option Z) Z) :
  a ≠ b →
  getIndex f (Some a) (setIndex f (Some b) value s) = getIndex f (Some a) s.
Proof.
  intros Hab. apply getIndex_setIndex_key. simpl. intros [= Heq]. lia.
Qed.

End TreeSlots.

Create HintDb tree.

#[local] Hint Resolve toIndex_aligned none_aligned getIndex_aligned
  setIndex_aligned toIndex_mod : tree.

Section TreeLinks.
Import TreeShape.
Context {E : Environment}.

Lemma unlink_aligned (node : Z) (s : gmap (option Z) Z) :
  aligned s → aligned (unlink node s).2.
Proof.
  intros Hs. unfold unlink, setFirstChildIndex, setLastChildIndex,
    setPrevSiblingIndex, setNextSiblingIndex, getParentIndex, getNextSiblingIndex,
    getPrevSiblingIndex, getFirstChildIndex, getLastChildIndex.
  repeat case_decide; simpl; eauto 10 with tree.
Qed.

(** [unlink] leaves the parent slots alone. *)
Lemma unlink_parent (node a : Z) (s : gmap (option Z) Z) :
  aligned s → a `mod` fieldCount = 0 →
  getParentIndex (Some a) (unlink node s).2 = getParentIndex (Some a) s.
Proof.
  intros Hs Ha. unfold unlink, setFirstChildIndex, setLastChildIndex,
    setPrevSiblingIndex, setNextSiblingIndex, getParentIndex, getNextSiblingIndex,
    getPrevSiblingIndex, getFirstChildIndex, getLastChildIndex.
  repeat case_decide; simpl;
    repeat (rewrite getIndex_setIndex_field by eauto 10 with tree); done.
Qed.

Lemma linkFirstChild_aligned (node parent_ : Z) (s : gmap (option Z) Z) :
  aligned s → aligned (linkFirstChild (toIndex node) (toIndex parent_) s).
Proof.
  intros Hs. unfold linkFirstChild, setFirstChildIndex, setLastChildIndex,
    setPrevSiblingIndex, setNextSiblingIndex, setParentIndex, getFirstChildIndex.
  cbv zeta. repeat case_decide; eauto 12 with tree.
Qed.

Lemma linkAfter_aligned (node prev : Z) (s : gmap (option Z) Z) :
  aligned s → aligned (linkAfter (toIndex node) (toIndex prev) s).
Proof.
  intros Hs. unfold linkAfter, setFirstChildIndex, setLastChildIndex,
    setPrevSiblingIndex, setNextSiblingIndex, setParentIndex, getParentIndex,
    getNextSiblingIndex, getLastChildIndex.
  cbv zeta. repeat case_decide; eauto 14 with tree.
Qed.

Lemma linkFirstChild_links (node parent_ : Z) (s : gmap (option Z) Z) :
  aligned s →
  let s' := linkFirstChild (toIndex node) (toIndex parent_) s in
  getParentIndex (Some (toIndex node)) s' = Some (toIndex parent_)
  ∧ getFirstChildIndex (Some (toIndex parent_)) s' = Some (toIndex node)
  ∧ getPrevSiblingIndex (Some (toIndex node)) s' = Some TreeNodeIndex_none.
Proof.
  intros Hs. unfold linkFirstChild, setFirstChildIndex, setLastChildIndex,
    setPrevSiblingIndex, setNextSiblingIndex, setParentIndex, getFirstChildIndex,
    getParentIndex, getPrevSiblingIndex.
  cbv zeta. split_and!.
  - repeat case_decide;
      repeat (rewrite getIndex_setIndex_field by eauto 12 with tree);
      apply getIndex_setIndex_same.
  - apply getIndex_setIndex_same.
  - repeat (rewrite getIndex_setIndex_field by eauto 12 with tree).
    apply getIndex_setIndex_same.
Qed.

Lemma linkAfter_links (node prev : Z) (s : gmap (option Z) Z) :
  aligned s →
  let s' := linkAfter (toIndex node) (toIndex prev) s in
  getPrevSiblingIndex (Some (toIndex node)) s' = Some (toIndex prev)
  ∧ getNextSiblingIndex (Some (toIndex prev)) s' = Some (toIndex node)
  ∧ getParentIndex (Some (toIndex node)) s' = getParentIndex (Some (toIndex prev)) s
  ∧ getParentIndex (Some (toIndex prev)) s' = getParentIndex (Some (toIndex prev)) s.
Proof.
  intros Hs. unfold linkAfter, setFirstChildIndex, setLastChildIndex,
    setPrevSiblingIndex, setNextSiblingIndex, setParentIndex, getParentIndex,
    getNextSiblingIndex, getLastChildIndex, getPrevSiblingIndex.
  cbv zeta. split_and!.
  - rewrite getIndex_setIndex_field by eauto 14 with tree.
    apply getIndex_setIndex_same.
  - apply getIndex_setIndex_same.
  - repeat case_decide;
      repeat (rewrite getIndex_setIndex_field by eauto 14 with tree);
      apply getIndex_setIndex_same.
  - destruct (decide (toIndex prev = toIndex node)) as [->|Hne];
      repeat case_decide;
      repeat (rewrite getIndex_setIndex_field by eauto 14 with tree);
      by rewrite ?getIndex_setIndex_same, ?getIndex_setIndex_node by done.
Qed.

End TreeLinks.

Section TreeNotifications.
Import TreeShape.
Context {E : Environment}.

Lemma toNode_Some (index : option Z) (node : Z) :
  toNode index = Some node ↔ index = Some (toIndex node).
Proof.
  split; [|intros ->; apply toNode_toIndex].
  destruct index as [z|]; [|done]. unfold toNode, toIndex, fieldCount.
  case_decide; [|done]. intros [= <-]. f_equal.
  pose proof (Z.div_mod z 5). lia.
Qed.

(** What [unlink] returns is what [beforeNode] answered before the call. *)
Lemma unlink_location (node : Z) (t : Tree) :
  (unlink (toIndex node) (shape t)).1 = beforeNode node t.
Proof.
  unfold unlink, beforeNode, getPrevSibling, getParent, afterNode.
  cbv zeta.
  destruct (decide (getPrevSiblingIndex (Some (toIndex node)) (shape t)
                    = Some TreeNodeIndex_none)) as [Hprev|Hprev]; simpl.
  - apply toNode_is_none in Hprev. by rewrite decide_True.
  - rewrite <- toNode_is_none in Hprev. by rewrite decide_False.
Qed.

End TreeNotifications.

(** X15. [moveNode], [removeNode] and [deleteNode] tell the consumers once,
    and the old location they pass is the one [beforeNode] gave for the node
    in the tree as it was before the call. *)
Theorem old_location_is_beforeNode `{E : TreeShape.Environment}
    (node location : Z) (t : TreeShape.Tree) :
  TreeShape.moved (TreeShape.moveNode node location t)
    = TreeShape.moved t ++ [(node, TreeShape.beforeNode node t)]
  ∧ TreeShape.moved (TreeShape.removeNode node t)
    = TreeShape.moved t ++ [(node, TreeShape.beforeNode node t)]
  ∧ TreeShape.moved (TreeShape.deleteNode node t)
    = TreeShape.moved t ++ [(node, TreeShape.beforeNode node t)].
Proof.
  pose proof (unlink_location node t) as Hloc.
  unfold TreeShape.moveNode, TreeShape.removeNode, TreeShape.deleteNode,
    TreeShape.removeNode.
  destruct (TreeShape.unlink (TreeShape.toIndex node) (TreeShape.shape t))
    as [oldLocation s1].
  simpl in *. by subst.
Qed.

Section TreeMove.
Import TreeShape.
Context {E : Environment}.

Lemma shape_moveNode (node location : Z) (t : Tree) :
  shape (moveNode node location t)
  = let s1 := (unlink (toIndex node) (shape t)).2 in
    if decide (0 < location)
    then linkAfter (toIndex node) (toIndex location) s1
    else linkFirstChild (toIndex node) (toIndex (- location)) s1.
Proof.
  unfold moveNode. by destruct (unlink (toIndex node) (shape t)).
Qed.

Lemma shape_removeNode (node : Z) (t : Tree) :
  shape (removeNode node t)
  = setPrevSiblingIndex (Some (toIndex node)) (Some TreeNodeIndex_none)
      (setNextSiblingIndex (Some (toIndex node)) (Some TreeNodeIndex_none)
         (setParentIndex (Some (toIndex node)) (Some TreeNodeIndex_none)
            (unlink (toIndex node) (shape t)).2)).
Proof.
  unfold removeNode. by destruct (unlink (toIndex node) (shape t)).
Qed.

Lemma empty_aligned : aligned (shape empty).
Proof.
  intros k v Hk. apply elem_of_list_to_map_2 in Hk.
  repeat (apply elem_of_cons in Hk as [[= _ ->]|Hk]; [exact (none_aligned _ eq_refl)|]).
  by apply elem_of_nil in Hk.
Qed.

Lemma moveNode_aligned (node location : Z) (t : Tree) :
  aligned (shape t) → aligned (shape (moveNode node location t)).
Proof.
  intros Hs. rewrite shape_moveNode. cbv zeta. case_decide.
  - by apply linkAfter_aligned, unlink_aligned.
  - by apply linkFirstChild_aligned, unlink_aligned.
Qed.

Lemma removeNode_aligned (node : Z) (t : Tree) :
  aligned (shape t) → aligned (shape (removeNode node t)).
Proof.
  intros Hs. rewrite shape_removeNode.
  pose proof (unlink_aligned (toIndex node) _ Hs).
  unfold setParentIndex, setNextSiblingIndex, setPrevSiblingIndex.
  eauto 10 with tree.
Qed.

Lemma createNode_aligned (t : Tree) :
  aligned (shape t) → aligned (shape (createNode t).2).
Proof.
  intros Hs. unfold createNode. destruct (handles_add (handles t)) as [node h].
  cbn [snd shape]. unfold setParentIndex, setFirstChildIndex, setNextSiblingIndex,
    setLastChildIndex, setPrevSiblingIndex.
  repeat apply setIndex_aligned; auto with tree.
Qed.

End TreeMove.

(** X16. After [moveNode(node, location)] on a tree whose stored indices are
    nodes times [fieldCount], [beforeNode(node)] is the location the node was
    moved to, and the parent of the node is the one [parentOfLocation] gave
    for that location before the move.  A location after a node must not
    name [TreeNode.none]. *)
Theorem moveNode_places_node `{E : TreeShape.Environment}
    (node location : Z) (t : TreeShape.Tree) :
  TreeShape.aligned (TreeShape.shape t) →
  (0 < location → location ≠ TreeShape.TreeNode_none) →
  TreeShape.beforeNode node (TreeShape.moveNode node location t) = Some location
  ∧ TreeShape.getParent node (TreeShape.moveNode node location t)
    = TreeShape.parentOfLocation location t.
Proof.
  intros Hs Hnone.
  pose proof (unlink_aligned (TreeShape.toIndex node) _ Hs) as Hs1.
  unfold TreeShape.beforeNode, TreeShape.parentOfLocation, TreeShape.getPrevSibling,
    TreeShape.getParent.
  rewrite shape_moveNode. cbv zeta.
  destruct (decide (0 < location)) as [Hpos|Hpos].
  - destruct (linkAfter_links node location _ Hs1) as (Hprev & _ & Hparent & _).
    rewrite Hprev, Hparent, toNode_toIndex, unlink_parent by eauto with tree.
    rewrite decide_False by (intros [= ?]; by apply Hnone).
    done.
  - destruct (linkFirstChild_links node (- location) _ Hs1) as (Hparent & _ & Hprev).
    rewrite Hprev, Hparent, toNode_none, toNode_toIndex.
    rewrite decide_True by done. split; [simpl; f_equal; lia | done].
Qed.

Lemma moveNode_places_node_witness :
  TreeShape.beforeNode 2 (TreeShape.moveNode 2 1
       (TreeShape.moveNode 1 0 (TreeShape.empty (E := TreeShape.exampleEnvironment))))
    = Some 1
  ∧ TreeShape.getParent 2 (TreeShape.moveNode 2 1
       (TreeShape.moveNode 1 0 (TreeShape.empty (E := TreeShape.exampleEnvironment))))
    = TreeShape.parentOfLocation 1
        (TreeShape.moveNode 1 0 (TreeShape.empty (E := TreeShape.exampleEnvironment))).
Proof.
  apply (moveNode_places_node (E := TreeShape.exampleEnvironment)).
  - apply moveNode_aligned, empty_aligned.
  - intros _. vm_compute. done.
Defined.

Section TreeUnlink.
Import TreeShape.
Context {E : Environment}.

Lemma toIndex_inj (a b : Z) : toIndex a = toIndex b → a = b.
Proof. unfold toIndex, fieldCount. lia. Qed.

(** [unlink] writes a first-child slot only for the parent whose first
    child the node is. *)
Lemma unlink_firstChild (node a : Z) (s : gmap (option Z) Z) :
  aligned s → a `mod` fieldCount = 0 →
  ¬ (getParentIndex (Some node) s = Some a
     ∧ getFirstChildIndex (Some a) s = Some node) →
  getFirstChildIndex (Some a) (unlink node s).2 = getFirstChildIndex (Some a) s.
Proof.
  intros Hs Ha Hnot. unfold unlink, setFirstChildIndex, setLastChildIndex,
    setPrevSiblingIndex, setNextSiblingIndex, getParentIndex, getNextSiblingIndex,
    getPrevSiblingIndex, getFirstChildIndex, getLastChildIndex in *.
  cbv zeta.
  destruct (decide (getIndex firstChild (getIndex parent (Some node) s) s = Some node))
    as [Hfirst|Hfirst].
  - repeat case_decide; simpl;
      repeat (rewrite getIndex_setIndex_field by eauto 10 with tree);
      (apply getIndex_setIndex_key;
       destruct (getIndex parent (Some node) s) as [b|] eqn:Hb; [|done];
       simpl; intros [= Heq]; assert (b = a) as -> by lia; by destruct Hnot).
  - repeat case_decide; simpl;
      repeat (rewrite getIndex_setIndex_field by eauto 10 with tree); done.
Qed.

Lemma unlink_lastChild (node a : Z) (s : gmap (option Z) Z) :
  aligned s → a `mod` fieldCount = 0 →
  ¬ (getParentIndex (Some node) s = Some a
     ∧ getLastChildIndex (Some a) s = Some node) →
  getLastChildIndex (Some a) (unlink node s).2 = getLastChildIndex (Some a) s.
Proof.
  intros Hs Ha Hnot. unfold unlink, setFirstChildIndex, setLastChildIndex,
    setPrevSiblingIndex, setNextSiblingIndex, getParentIndex, getNextSiblingIndex,
    getPrevSiblingIndex, getFirstChildIndex, getLastChildIndex in *.
  cbv zeta.
  set (s1 := if decide (getIndex firstChild (getIndex parent (Some node) s) s = Some node)
             then _ else s).
  assert (aligned s1) as Hs1 by (subst s1; case_decide; eauto 10 with tree).
  assert (getIndex lastChild (Some a) s1 = getIndex lastChild (Some a) s) as Hsame.
  { subst s1. case_decide; [|done].
    by rewrite getIndex_setIndex_field by eauto 10 with tree. }
  destruct (decide (getIndex lastChild (getIndex parent (Some node) s) s1 = Some node))
    as [Hlast|Hlast].
  - repeat case_decide; simpl;
      repeat (rewrite getIndex_setIndex_field by eauto 10 with tree);
      (rewrite getIndex_setIndex_key; [done|];
       destruct (getIndex parent (Some node) s) as [b|] eqn:Hb; [|done];
       simpl; intros [= Heq]; assert (b = a) as -> by lia;
       destruct Hnot; by rewrite <- Hsame).
  - repeat case_decide; simpl;
      repeat (rewrite getIndex_setIndex_field by eauto 10 with tree); done.
Qed.

(** [unlink] writes a next-sibling slot only for the node before. *)
Lemma unlink_nextSibling (node a : Z) (s : gmap (option Z) Z) :
  aligned s → a `mod` fieldCount = 0 →
  getPrevSiblingIndex (Some node) s ≠ Some a →
  getNextSiblingIndex (Some a) (unlink node s).2 = getNextSiblingIndex (Some a) s.
Proof.
  intros Hs Ha Hnot. unfold unlink, setFirstChildIndex, setLastChildIndex,
    setPrevSiblingIndex, setNextSiblingIndex, getParentIndex, getNextSiblingIndex,
    getPrevSiblingIndex, getFirstChildIndex, getLastChildIndex in *.
  cbv zeta.
  repeat case_decide; simpl;
    try (rewrite getIndex_setIndex_key;
         [|destruct (getIndex prevSibling (Some node) s) as [b|] eqn:Hb; [|done];
           simpl; intros [= Heq]; assert (b = a) as -> by lia; done]);
    repeat (rewrite getIndex_setIndex_field by eauto 10 with tree); done.
Qed.

(** [unlink] writes a previous-sibling slot only for the node after. *)
Lemma unlink_prevSibling (node a : Z) (s : gmap (option Z) Z) :
  aligned s → a `mod` fieldCount = 0 →
  getNextSiblingIndex (Some node) s ≠ Some a →
  getPrevSiblingIndex (Some a) (unlink node s).2 = getPrevSiblingIndex (Some a) s.
Proof.
  intros Hs Ha Hnot. unfold unlink, setFirstChildIndex, setLastChildIndex,
    setPrevSiblingIndex, setNextSiblingIndex, getParentIndex, getNextSiblingIndex,
    getPrevSiblingIndex, getFirstChildIndex, getLastChildIndex in *.
  cbv zeta.
  repeat case_decide; simpl;
    repeat (rewrite getIndex_setIndex_field by eauto 10 with tree);
    try (rewrite getIndex_setIndex_key;
         [|destruct (getIndex nextSibling (Some node) s) as [b|] eqn:Hb; [|done];
           simpl; intros [= Heq]; assert (b = a) as -> by lia; done]);
    repeat (rewrite getIndex_setIndex_field by eauto 10 with tree); done.
Qed.

End TreeUnlink.

Section TreeInsert.
Import TreeShape.
Context {E : Environment}.

Lemma linkFirstChild_pushes (node parent_ f : Z) (s : gmap (option Z) Z) :
  aligned s → getFirstChildIndex (Some (toIndex parent_)) s = Some (toIndex f) →
  f ≠ node →
  let s' := linkFirstChild (toIndex node) (toIndex parent_) s in
  getNextSiblingIndex (Some (toIndex node)) s' = Some (toIndex f)
  ∧ (f ≠ TreeNode_none → getPrevSiblingIndex (Some (toIndex f)) s' = Some (toIndex node))
  ∧ (f = TreeNode_none →
     getLastChildIndex (Some (toIndex parent_)) s' = Some (toIndex node)).
Proof.
  intros Hs Hf Hne. unfold linkFirstChild, setFirstChildIndex, setLastChildIndex,
    setPrevSiblingIndex, setNextSiblingIndex, setParentIndex, getFirstChildIndex,
    getParentIndex, getPrevSiblingIndex, getNextSiblingIndex, getLastChildIndex in *.
  cbv zeta.
  rewrite !(getIndex_setIndex_field firstChild parent) by eauto with tree.
  rewrite Hf.
  assert (toIndex f ≠ toIndex node) by (by intros ?%toIndex_inj).
  split_and!.
  - rewrite getIndex_setIndex_field by (try case_decide; eauto 12 with tree).
    apply getIndex_setIndex_same.
  - intros Hnone. rewrite decide_False
      by (intros [= ?%(toIndex_inj f TreeNode_none)]; done).
    rewrite !getIndex_setIndex_field by eauto 12 with tree.
    rewrite getIndex_setIndex_node by done.
    apply getIndex_setIndex_same.
  - intros ->. rewrite decide_True by done.
    rewrite !getIndex_setIndex_field by eauto 12 with tree.
    apply getIndex_setIndex_same.
Qed.

Lemma linkAfter_inserts (node prev n : Z) (s : gmap (option Z) Z) :
  aligned s → getNextSiblingIndex (Some (toIndex prev)) s = Some (toIndex n) →
  prev ≠ node → n ≠ node →
  let s' := linkAfter (toIndex node) (toIndex prev) s in
  getNextSiblingIndex (Some (toIndex node)) s' = Some (toIndex n)
  ∧ (n ≠ TreeNode_none → getPrevSiblingIndex (Some (toIndex n)) s' = Some (toIndex node))
  ∧ (∀ p, getParentIndex (Some (toIndex prev)) s = Some (toIndex p) →
       getLastChildIndex (Some (toIndex p)) s = Some (toIndex prev) →
       getLastChildIndex (Some (toIndex p)) s' = Some (toIndex node)).
Proof.
  intros Hs Hn Hprev Hne. unfold linkAfter, setFirstChildIndex, setLastChildIndex,
    setPrevSiblingIndex, setNextSiblingIndex, setParentIndex, getFirstChildIndex,
    getParentIndex, getPrevSiblingIndex, getNextSiblingIndex, getLastChildIndex in *.
  cbv zeta.
  assert (toIndex prev ≠ toIndex node) by (by intros ?%toIndex_inj).
  assert (toIndex n ≠ toIndex node) by (by intros ?%toIndex_inj).
  set (newParent := getIndex parent (Some (toIndex prev)) s).
  set (s1 := setIndex parent (Some (toIndex node)) newParent s).
  set (s2 := if decide (getIndex lastChild newParent s1 = Some (toIndex prev))
             then _ else s1).
  assert (aligned s1) as Hs1 by (subst s1 newParent; eauto 12 with tree).
  assert (aligned s2) as Hs2 by (subst s2 newParent; case_decide; eauto 12 with tree).
  assert (getIndex nextSibling (Some (toIndex prev)) s2 = Some (toIndex n)) as ->.
  { subst s2 s1 newParent.
    case_decide; rewrite !getIndex_setIndex_field by eauto 12 with tree; done. }
  split_and!.
  - rewrite getIndex_setIndex_node by done.
    rewrite getIndex_setIndex_field by eauto 14 with tree.
    destruct (decide (Some (toIndex n) ≠ Some TreeNodeIndex_none)).
    + rewrite getIndex_setIndex_field by eauto 14 with tree.
      apply getIndex_setIndex_same.
    + apply getIndex_setIndex_same.
  - intros Hnone. rewrite decide_True
      by (intros [= ?%(toIndex_inj n TreeNode_none)]; done).
    rewrite getIndex_setIndex_field by eauto 14 with tree.
    rewrite getIndex_setIndex_node by done.
    apply getIndex_setIndex_same.
  - intros p Hp Hlast.
    rewrite getIndex_setIndex_field by eauto 14 with tree.
    rewrite getIndex_setIndex_field by eauto 14 with tree.
    assert (getIndex lastChild (Some (toIndex p)) s2 = Some (toIndex node)) as Hgoal.
    { subst s2. subst newParent. rewrite Hp. rewrite decide_True
        by (subst s1; by rewrite getIndex_setIndex_field by eauto 14 with tree).
      apply getIndex_setIndex_same. }
    destruct (decide (Some (toIndex n) ≠ Some TreeNodeIndex_none)).
    + by rewrite !getIndex_setIndex_field by eauto 14 with tree.
    + by rewrite !getIndex_setIndex_field by eauto 14 with tree.
Qed.

End TreeInsert.

Section TreeExample.
Import TreeShape.

Lemma family_aligned : aligned (shape family).
Proof.
  unfold family. cbv zeta.
  do 2 apply (moveNode_aligned (E := exampleEnvironment)).
  do 3 apply (createNode_aligned (E := exampleEnvironment)).
  apply empty_aligned.
Qed.

End TreeExample.

(** X17. [moveNode(node, firstChildOf(parent))], that is a location that is
    not positive, puts the node in front of the old first child [f] of the
    parent: the node becomes the first child and has no previous sibling, its
    next sibling is [f], and [f], when it is a node, has the node before it;
    when the parent had no child the node is its last child as well. *)
Theorem moveNode_first_child `{E : TreeShape.Environment}
    (node location f : Z) (t : TreeShape.Tree) :
  TreeShape.aligned (TreeShape.shape t) →
  location ≤ 0 →
  TreeShape.getFirstChild (- location) t = Some f →
  f ≠ node →
  TreeShape.getFirstChild (- location) (TreeShape.moveNode node location t) = Some node
  ∧ TreeShape.getPrevSibling node (TreeShape.moveNode node location t)
    = Some TreeShape.TreeNode_none
  ∧ TreeShape.getNextSibling node (TreeShape.moveNode node location t) = Some f
  ∧ (f ≠ TreeShape.TreeNode_none →
     TreeShape.getPrevSibling f (TreeShape.moveNode node location t) = Some node)
  ∧ (f = TreeShape.TreeNode_none →
     TreeShape.getLastChild (- location) (TreeShape.moveNode node location t)
     = Some node).
Proof.
  intros Hs Hloc Hf Hne.
  pose proof (unlink_aligned (TreeShape.toIndex node) _ Hs) as Hs1.
  unfold TreeShape.getFirstChild, TreeShape.getPrevSibling, TreeShape.getNextSibling,
    TreeShape.getLastChild in *.
  apply toNode_Some in Hf.
  rewrite shape_moveNode. cbv zeta. rewrite decide_False by lia.
  assert (TreeShape.getFirstChildIndex (Some (TreeShape.toIndex (- location)))
            (TreeShape.unlink (TreeShape.toIndex node) (TreeShape.shape t)).2
          = Some (TreeShape.toIndex f)) as Hf1.
  { rewrite unlink_firstChild; eauto with tree.
    intros [_ Heq]. rewrite Hf in Heq. injection Heq as Heq.
    by apply toIndex_inj in Heq. }
  destruct (linkFirstChild_links node (- location) _ Hs1) as (_ & Hfirst & Hprev).
  destruct (linkFirstChild_pushes node (- location) f _ Hs1 Hf1 Hne)
    as (Hnext & Hpush & Hlast).
  rewrite Hfirst, Hprev, Hnext, toNode_none, !toNode_toIndex.
  split_and!; try done.
  - intros Hnone. by rewrite Hpush, toNode_toIndex.
  - intros Hnone. by rewrite Hlast, toNode_toIndex.
Qed.

Lemma moveNode_first_child_witness :
  TreeShape.getFirstChild 0 (TreeShape.moveNode 3 0 TreeShape.family) = Some 3
  ∧ TreeShape.getNextSibling 3 (TreeShape.moveNode 3 0 TreeShape.family) = Some 1
  ∧ TreeShape.getPrevSibling 1 (TreeShape.moveNode 3 0 TreeShape.family) = Some 3.
Proof.
  destruct (moveNode_first_child (E := TreeShape.exampleEnvironment)
              3 0 1 TreeShape.family) as (Hfirst & _ & Hnext & Hprev & _).
  - apply family_aligned.
  - lia.
  - vm_compute. reflexivity.
  - lia.
  - split_and!; [exact Hfirst | exact Hnext | apply Hprev; vm_compute; lia].
Defined.

(** X18. [moveNode(node, afterNode(prev))], that is a positive location,
    puts the node between [prev] and the old next sibling [n] of [prev]:
    given that the node is not [prev], is not [n] and was not already right
    after [prev], the node has [prev] before it and [n] after it, [prev] has
    the node after it, [n], when it is a node, has the node before it, and
    when [prev] was the last child of its parent the node is the last child
    now. *)
Theorem moveNode_after `{E : TreeShape.Environment}
    (node location n : Z) (t : TreeShape.Tree) :
  TreeShape.aligned (TreeShape.shape t) →
  0 < location →
  location ≠ node →
  TreeShape.getPrevSibling node t ≠ Some location →
  TreeShape.getNextSibling location t = Some n →
  n ≠ node →
  TreeShape.getPrevSibling node (TreeShape.moveNode node location t) = Some location
  ∧ TreeShape.getNextSibling location (TreeShape.moveNode node location t) = Some node
  ∧ TreeShape.getNextSibling node (TreeShape.moveNode node location t) = Some n
  ∧ (n ≠ TreeShape.TreeNode_none →
     TreeShape.getPrevSibling n (TreeShape.moveNode node location t) = Some node)
  ∧ (∀ p, TreeShape.getParent location t = Some p →
       TreeShape.getLastChild p t = Some location →
       TreeShape.getLastChild p (TreeShape.moveNode node location t) = Some node).
Proof.
  intros Hs Hloc Hprev Hnot Hn Hne.
  pose proof (unlink_aligned (TreeShape.toIndex node) _ Hs) as Hs1.
  unfold TreeShape.getFirstChild, TreeShape.getPrevSibling, TreeShape.getNextSibling,
    TreeShape.getLastChild, TreeShape.getParent in *.
  apply toNode_Some in Hn. rewrite toNode_Some in Hnot.
  rewrite shape_moveNode. cbv zeta. rewrite decide_True by lia.
  assert (TreeShape.getNextSiblingIndex (Some (TreeShape.toIndex location))
            (TreeShape.unlink (TreeShape.toIndex node) (TreeShape.shape t)).2
          = Some (TreeShape.toIndex n)) as Hn1.
  { rewrite unlink_nextSibling; eauto with tree. }
  destruct (linkAfter_links node location _ Hs1) as (Hback & Hforth & _ & _).
  destruct (linkAfter_inserts node location n _ Hs1 Hn1 Hprev Hne)
    as (Hnext & Hpush & Hlast).
  rewrite Hback, Hforth, Hnext, !toNode_toIndex.
  split_and!; try done.
  - intros Hnone. by rewrite Hpush, toNode_toIndex.
  - intros p Hp Hp_last. apply toNode_Some in Hp, Hp_last.
    rewrite Hlast, ?toNode_toIndex; [done| |].
    + by rewrite unlink_parent by eauto with tree.
    + rewrite unlink_lastChild; eauto with tree.
      intros [_ Heq]. rewrite Hp_last in Heq. injection Heq as Heq.
      by apply toIndex_inj in Heq.
Qed.

Lemma moveNode_after_witness :
  TreeShape.getPrevSibling 3 (TreeShape.moveNode 3 1 TreeShape.family) = Some 1
  ∧ TreeShape.getNextSibling 1 (TreeShape.moveNode 3 1 TreeShape.family) = Some 3
  ∧ TreeShape.getNextSibling 3 (TreeShape.moveNode 3 1 TreeShape.family) = Some 2
  ∧ TreeShape.getPrevSibling 2 (TreeShape.moveNode 3 1 TreeShape.family) = Some 3.
Proof.
  destruct (moveNode_after (E := TreeShape.exampleEnvironment)
              3 1 2 TreeShape.family) as (Hback & Hforth & Hnext & Hprev & _).
  - apply family_aligned.
  - lia.
  - lia.
  - vm_compute. discriminate.
  - vm_compute. reflexivity.
  - lia.
  - split_and!; [exact Hback | exact Hforth | exact Hnext | apply Hprev; vm_compute; lia].
Defined.

(** X19. [removeNode] detaches the node and keeps its children: afterwards
    the node has no parent and no sibling on either side, and, in a tree
    whose stored indices are nodes times [fieldCount] and where the node is
    not its own parent, its first and last child are the ones it had. *)
Theorem removeNode_detaches `{E : TreeShape.Environment}
    (node : Z) (t : TreeShape.Tree) :
  TreeShape.aligned (TreeShape.shape t) →
  TreeShape.getParent node t ≠ Some node →
  TreeShape.getParent node (TreeShape.removeNode node t) = Some TreeShape.TreeNode_none
  ∧ TreeShape.getNextSibling node (TreeShape.removeNode node t)
    = Some TreeShape.TreeNode_none
  ∧ TreeShape.getPrevSibling node (TreeShape.removeNode node t)
    = Some TreeShape.TreeNode_none
  ∧ TreeShape.getFirstChild node (TreeShape.removeNode node t)
    = TreeShape.getFirstChild node t
  ∧ TreeShape.getLastChild node (TreeShape.removeNode node t)
    = TreeShape.getLastChild node t.
Proof.
  intros Hs Hself.
  pose proof (unlink_aligned (TreeShape.toIndex node) _ Hs) as Hs1.
  unfold TreeShape.getFirstChild, TreeShape.getPrevSibling, TreeShape.getNextSibling,
    TreeShape.getLastChild, TreeShape.getParent in *.
  rewrite toNode_Some in Hself.
  rewrite shape_removeNode.
  unfold TreeShape.setParentIndex, TreeShape.setNextSiblingIndex,
    TreeShape.setPrevSiblingIndex, TreeShape.getParentIndex,
    TreeShape.getNextSiblingIndex, TreeShape.getPrevSiblingIndex,
    TreeShape.getFirstChildIndex, TreeShape.getLastChildIndex in *.
  split_and!.
  - rewrite !getIndex_setIndex_field by eauto 10 with tree.
    by rewrite getIndex_setIndex_same, toNode_none.
  - rewrite getIndex_setIndex_field by eauto 10 with tree.
    by rewrite getIndex_setIndex_same, toNode_none.
  - by rewrite getIndex_setIndex_same, toNode_none.
  - rewrite !getIndex_setIndex_field by eauto 10 with tree.
    f_equal. apply unlink_firstChild; eauto with tree. by intros [? _].
  - rewrite !getIndex_setIndex_field by eauto 10 with tree.
    f_equal. apply unlink_lastChild; eauto with tree. by intros [? _].
Qed.

Lemma removeNode_detaches_witness :
  TreeShape.getParent 1 (TreeShape.removeNode 1 (TreeShape.moveNode 3 (-1) TreeShape.family))
    = Some 0
  ∧ TreeShape.getFirstChild 1
      (TreeShape.removeNode 1 (TreeShape.moveNode 3 (-1) TreeShape.family))
    = Some 3.
Proof.
  destruct (removeNode_detaches (E := TreeShape.exampleEnvironment)
              1 (TreeShape.moveNode 3 (-1) TreeShape.family))
    as (Hparent & _ & _ & Hfirst & _).
  - apply moveNode_aligned, family_aligned.
  - vm_compute. discriminate.
  - split; [exact Hparent|]. rewrite Hfirst. vm_compute. reflexivity.
Defined.

(** X20. [removeNode] closes the gap the node leaves.  When the node stood
    between [p] and [n], both different from the node, then afterwards [p],
    when it is a node, has [n] after it, and [n], when it is a node, has [p]
    before it; the parent whose first child the node was has [n] as its
    first child, and the parent whose last child it was has [p] as its
    last. *)
Theorem removeNode_closes_gap `{E : TreeShape.Environment}
    (node p n : Z) (t : TreeShape.Tree) :
  TreeShape.aligned (TreeShape.shape t) →
  TreeShape.getPrevSibling node t = Some p →
  TreeShape.getNextSibling node t = Some n →
  p ≠ node → n ≠ node →
  (p ≠ TreeShape.TreeNode_none →
   TreeShape.getNextSibling p (TreeShape.removeNode node t) = Some n)
  ∧ (n ≠ TreeShape.TreeNode_none →
     TreeShape.getPrevSibling n (TreeShape.removeNode node t) = Some p)
  ∧ (∀ q, TreeShape.getParent node t = Some q →
       TreeShape.getFirstChild q t = Some node →
       TreeShape.getFirstChild q (TreeShape.removeNode node t) = Some n)
  ∧ (∀ q, TreeShape.getParent node t = Some q →
       TreeShape.getLastChild q t = Some node →
       TreeShape.getLastChild q (TreeShape.removeNode node t) = Some p).
Proof.
  intros Hs Hp Hn Hpne Hnne.
  pose proof (unlink_aligned (TreeShape.toIndex node) _ Hs) as Hs1.
  unfold TreeShape.getFirstChild, TreeShape.getPrevSibling, TreeShape.getNextSibling,
    TreeShape.getLastChild, TreeShape.getParent in *.
  apply toNode_Some in Hp, Hn.
  assert (TreeShape.toIndex p ≠ TreeShape.toIndex node) by (by intros ?%toIndex_inj).
  assert (TreeShape.toIndex n ≠ TreeShape.toIndex node) by (by intros ?%toIndex_inj).
  rewrite shape_removeNode.
  unfold TreeShape.setParentIndex, TreeShape.setNextSiblingIndex,
    TreeShape.setPrevSiblingIndex, TreeShape.getParentIndex,
    TreeShape.getNextSiblingIndex, TreeShape.getPrevSiblingIndex,
    TreeShape.getFirstChildIndex, TreeShape.getLastChildIndex in *.
  split_and!.
  - intros Hnone.
    rewrite getIndex_setIndex_field by eauto 10 with tree.
    rewrite getIndex_setIndex_node by done.
    rewrite getIndex_setIndex_field by eauto 10 with tree.
    apply toNode_Some.
    unfold TreeShape.unlink, TreeShape.getPrevSiblingIndex,
      TreeShape.getNextSiblingIndex, TreeShape.setNextSiblingIndex.
    cbv zeta. rewrite Hp, Hn.
    rewrite (decide_False (P := Some (TreeShape.toIndex p)
                               = Some TreeShape.TreeNodeIndex_none))
      by (intros [= ?%(toIndex_inj p TreeShape.TreeNode_none)]; done).
    apply getIndex_setIndex_same.
  - intros Hnone.
    rewrite getIndex_setIndex_node by done.
    rewrite !getIndex_setIndex_field by eauto 10 with tree.
    apply toNode_Some.
    unfold TreeShape.unlink, TreeShape.getPrevSiblingIndex,
      TreeShape.getNextSiblingIndex, TreeShape.setNextSiblingIndex,
      TreeShape.setPrevSiblingIndex, TreeShape.setFirstChildIndex,
      TreeShape.setLastChildIndex, TreeShape.getFirstChildIndex,
      TreeShape.getLastChildIndex, TreeShape.getParentIndex.
    cbv zeta. rewrite Hp, Hn.
    rewrite (decide_True (P := Some (TreeShape.toIndex n)
                              ≠ Some TreeShape.TreeNodeIndex_none))
      by (intros [= ?%(toIndex_inj n TreeShape.TreeNode_none)]; done).
    case_decide; cbn [snd];
      rewrite ?getIndex_setIndex_field by (repeat case_decide; eauto 10 with tree);
      apply getIndex_setIndex_same.
  - intros q Hq Hfirst. apply toNode_Some in Hq, Hfirst.
    rewrite !getIndex_setIndex_field by eauto 10 with tree.
    apply toNode_Some.
    unfold TreeShape.unlink, TreeShape.getPrevSiblingIndex,
      TreeShape.getNextSiblingIndex, TreeShape.setNextSiblingIndex,
      TreeShape.setPrevSiblingIndex, TreeShape.setFirstChildIndex,
      TreeShape.setLastChildIndex, TreeShape.getFirstChildIndex,
      TreeShape.getLastChildIndex, TreeShape.getParentIndex.
    cbv zeta. rewrite Hp, Hn, Hq. rewrite (decide_True _ _ Hfirst).
    repeat case_decide; cbn [snd];
      rewrite ?getIndex_setIndex_field by eauto 10 with tree;
      apply getIndex_setIndex_same.
  - intros q Hq Hlast. apply toNode_Some in Hq, Hlast.
    rewrite !getIndex_setIndex_field by eauto 10 with tree.
    apply toNode_Some.
    unfold TreeShape.unlink, TreeShape.getPrevSiblingIndex,
      TreeShape.getNextSiblingIndex, TreeShape.setNextSiblingIndex,
      TreeShape.setPrevSiblingIndex, TreeShape.setFirstChildIndex,
      TreeShape.setLastChildIndex, TreeShape.getFirstChildIndex,
      TreeShape.getLastChildIndex, TreeShape.getParentIndex.
    cbv zeta. rewrite Hp, Hn, Hq.
    destruct (decide (TreeShape.getIndex TreeShape.firstChild
                        (Some (TreeShape.toIndex q)) (TreeShape.shape t)
                      = Some (TreeShape.toIndex node)));
      (rewrite (decide_True (P := TreeShape.getIndex TreeShape.lastChild _ _
                                  = Some (TreeShape.toIndex node)))
         by (by rewrite ?getIndex_setIndex_field by eauto 10 with tree));
      repeat case_decide; cbn [snd];
      rewrite ?getIndex_setIndex_field by eauto 10 with tree;
      apply getIndex_setIndex_same.
Qed.

Lemma removeNode_closes_gap_witness :
  TreeShape.getNextSibling 1
      (TreeShape.removeNode 3 (TreeShape.moveNode 3 1 TreeShape.family)) = Some 2
  ∧ TreeShape.getPrevSibling 2
      (TreeShape.removeNode 3 (TreeShape.moveNode 3 1 TreeShape.family)) = Some 1.
Proof.
  destruct (removeNode_closes_gap (E := TreeShape.exampleEnvironment)
              3 1 2 (TreeShape.moveNode 3 1 TreeShape.family))
    as (Hnext & Hprev & _).
  - apply moveNode_aligned, family_aligned.
  - vm_compute. reflexivity.
  - vm_compute. reflexivity.
  - lia.
  - lia.
  - split; [apply Hnext | apply Hprev]; vm_compute; lia.
Defined.

(** X21. Every index a [TreeShape] ever stores is a node times
    [fieldCount]: this holds for the new tree and [createNode], [deleteNode],
    [moveNode] and [removeNode] keep it, whatever their arguments.  So a slot
    that holds a number is read back by the getters as a whole node, the
    number divided by [fieldCount]. *)
Theorem stored_indices_are_nodes `{E : TreeShape.Environment} (t : TreeShape.Tree) :
  TreeShape.reachable t →
  TreeShape.aligned (TreeShape.shape t)
  ∧ ∀ (field : TreeShape.ShapeFieldOffset) (node : Z),
      TreeShape.toNode
        (TreeShape.getIndex field (Some (TreeShape.toIndex node)) (TreeShape.shape t))
      = (λ index, index / TreeShape.fieldCount)
          <$> TreeShape.getIndex field (Some (TreeShape.toIndex node)) (TreeShape.shape t).
Proof.
  intros Hreach.
  assert (TreeShape.aligned (TreeShape.shape t)) as Hs.
  { induction Hreach.
    - apply empty_aligned.
    - by apply createNode_aligned.
    - unfold TreeShape.deleteNode. cbn [TreeShape.shape]. by apply removeNode_aligned.
    - by apply moveNode_aligned.
    - by apply removeNode_aligned. }
  split; [done|]. intros field node.
  pose proof (getIndex_aligned field (Some (TreeShape.toIndex node)) _ Hs) as Hal.
  destruct (TreeShape.getIndex field (Some (TreeShape.toIndex node)) (TreeShape.shape t))
    as [z|]; [|done].
  simpl. by rewrite decide_True by (by apply Hal).
Qed.

Lemma stored_indices_are_nodes_witness :
  TreeShape.aligned (TreeShape.shape TreeShape.family)
  ∧ ∀ (field : TreeShape.ShapeFieldOffset) (node : Z),
      TreeShape.toNode
        (TreeShape.getIndex field (Some (TreeShape.toIndex node))
           (TreeShape.shape TreeShape.family))
      = (λ index, index / TreeShape.fieldCount)
          <$> TreeShape.getIndex field (Some (TreeShape.toIndex node))
                (TreeShape.shape TreeShape.family).
Proof.
  apply (stored_indices_are_nodes (E := TreeShape.exampleEnvironment)).
  unfold TreeShape.family. cbv zeta.
  do 2 apply (TreeShape.reachable_moveNode (E := TreeShape.exampleEnvironment)).
  do 3 apply (TreeShape.reachable_createNode (E := TreeShape.exampleEnvironment)).
  apply TreeShape.reachable_empty.
Defined.

Section TreeCreate.
Import TreeShape.
Context {E : Environment}.

(** The slots of two different nodes never coincide. *)
Lemma getIndex_setIndex_other (f g : ShapeFieldOffset) (m n : Z) (value : option Z)
    (s : gmap (option Z) Z) :
  m ≠ n →
  getIndex f (Some (toIndex m)) (setIndex g (Some (toIndex n)) value s)
  = getIndex f (Some (toIndex m)) s.
Proof.
  intros Hne. apply getIndex_setIndex_key. simpl. intros [= Heq].
  unfold toIndex, fieldCount in Heq. destruct f, g; simpl in Heq; lia.
Qed.

End TreeCreate.

(** X22. [createNode] gives the node of the handle it takes from the table
    and sets all five links of that node to [TreeNode.none]; it tells no
    consumer, and the links of every other node stay as they were. *)
Theorem createNode_isolated `{E : TreeShape.Environment} (t : TreeShape.Tree) :
  (TreeShape.createNode t).1 = (TreeShape.handles_add (TreeShape.handles t)).1
  ∧ (∀ get, get ∈ [TreeShape.getParent; TreeShape.getFirstChild;
                   TreeShape.getLastChild; TreeShape.getNextSibling;
                   TreeShape.getPrevSibling] →
       get (TreeShape.createNode t).1 (TreeShape.createNode t).2
       = Some TreeShape.TreeNode_none
       ∧ ∀ other, other ≠ (TreeShape.createNode t).1 →
           get other (TreeShape.createNode t).2 = get other t)
  ∧ TreeShape.moved (TreeShape.createNode t).2 = TreeShape.moved t.
Proof.
  unfold TreeShape.createNode.
  destruct (TreeShape.handles_add (TreeShape.handles t)) as [node h].
  cbn [fst snd TreeShape.moved]. split_and!; [done| |done].
  intros get Hget.
  unfold TreeShape.setParentIndex, TreeShape.setFirstChildIndex,
    TreeShape.setNextSiblingIndex, TreeShape.setLastChildIndex,
    TreeShape.setPrevSiblingIndex.
  repeat (apply elem_of_cons in Hget as [->|Hget];
    [unfold TreeShape.getParent, TreeShape.getFirstChild, TreeShape.getLastChild,
       TreeShape.getNextSibling, TreeShape.getPrevSibling,
       TreeShape.getParentIndex, TreeShape.getFirstChildIndex,
       TreeShape.getLastChildIndex, TreeShape.getNextSiblingIndex,
       TreeShape.getPrevSiblingIndex; cbn [TreeShape.shape];
     split;
     [rewrite ?getIndex_setIndex_field by eauto 10 with tree;
      by rewrite getIndex_setIndex_same, toNode_none
     |intros other Hother; by rewrite !getIndex_setIndex_other by done]|]).
  by apply elem_of_nil in Hget.
Qed.

Section TreeUndo.
Import TreeShape.
Context {E : Environment}.

Lemma setIndex_lookup (f : ShapeFieldOffset) (a : Z) (value : Z)
    (s : gmap (option Z) Z) (k : option Z) :
  setIndex f (Some a) (Some value) s !! k
  = if decide (Some (a + offset f) = k) then Some value else s !! k.
Proof. unfold setIndex. simpl. apply lookup_insert. Qed.

Lemma aligned_if (P : Prop) `{Decision P} (s1 s2 : gmap (option Z) Z) :
  aligned s1 → aligned s2 → aligned (if decide P then s1 else s2).
Proof. by case_decide. Qed.

Lemma toIndex_not_none (node : Z) :
  node ≠ TreeNode_none → Some (toIndex node) ≠ Some TreeNodeIndex_none.
Proof. intros Hne [= ?%(toIndex_inj node TreeNode_none)]. done. Qed.

Ltac read_slots :=
  repeat first
    [ rewrite getIndex_setIndex_same
    | rewrite getIndex_setIndex_field by eauto 14 using aligned_if with tree ].

Ltac read_known :=
  repeat match goal with
  | H : getIndex _ _ _ = Some _ |- _ => rewrite H
  end.

Ltac settle_tests :=
  repeat match goal with
  | |- context [@decide ?P ?d] =>
      first [ rewrite (@decide_True _ P d) by (read_slots; congruence)
            | rewrite (@decide_False _ P d) by (read_slots; congruence) ]
  end.

Lemma relink_first (node q n : Z) (s : gmap (option Z) Z) :
  aligned s →
  getParentIndex (Some (toIndex node)) s = Some (toIndex q) →
  getPrevSiblingIndex (Some (toIndex node)) s = Some TreeNodeIndex_none →
  getNextSiblingIndex (Some (toIndex node)) s = Some (toIndex n) →
  getFirstChildIndex (Some (toIndex q)) s = Some (toIndex node) →
  (if decide (n = TreeNode_none)
   then getLastChildIndex (Some (toIndex q)) s = Some (toIndex node)
   else getPrevSiblingIndex (Some (toIndex n)) s = Some (toIndex node)
        ∧ getLastChildIndex (Some (toIndex q)) s ≠ Some (toIndex node)) →
  linkFirstChild (toIndex node) (toIndex q) (unlink (toIndex node) s).2 = s.
Proof.
  intros Hs HP HV HN HF Hn.
  unfold unlink, linkFirstChild, setFirstChildIndex, setLastChildIndex,
    setPrevSiblingIndex, setNextSiblingIndex, setParentIndex, getParentIndex,
    getNextSiblingIndex, getPrevSiblingIndex, getFirstChildIndex, getLastChildIndex in *.
  cbv zeta. rewrite HP, HV, HN.
  destruct (decide (n = TreeNode_none)) as [->|Hnone].
  - change (toIndex TreeNode_none) with TreeNodeIndex_none in *.
    repeat (progress (settle_tests; cbn [snd]; read_slots; read_known)).
    apply map_eq. intros k. rewrite !setIndex_lookup.
    unfold getIndex in *. simpl in *.
    repeat case_decide; simplify_eq; try done; try congruence.
  - destruct Hn as [HNp HL]. apply toIndex_not_none in Hnone.
    repeat (progress (settle_tests; cbn [snd]; read_slots; read_known)).
    apply map_eq. intros k. rewrite !setIndex_lookup.
    unfold getIndex in *. simpl in *.
    repeat case_decide; simplify_eq; try done; try congruence.
Qed.

(** What [unlink] leaves of a node that has a previous sibling and is not
    the first child of its parent. *)
Lemma unlink_after (node q p n : Z) (s : gmap (option Z) Z) :
  aligned s →
  p ≠ TreeNode_none →
  getParentIndex (Some (toIndex node)) s = Some (toIndex q) →
  getPrevSiblingIndex (Some (toIndex node)) s = Some (toIndex p) →
  getNextSiblingIndex (Some (toIndex node)) s = Some (toIndex n) →
  getFirstChildIndex (Some (toIndex q)) s ≠ Some (toIndex node) →
  (if decide (n = TreeNode_none)
   then getLastChildIndex (Some (toIndex q)) s = Some (toIndex node)
   else getLastChildIndex (Some (toIndex q)) s ≠ Some (toIndex node)) →
  (unlink (toIndex node) s).2
  = setNextSiblingIndex (Some (toIndex p)) (Some (toIndex n))
      (if decide (n = TreeNode_none)
       then setLastChildIndex (Some (toIndex q)) (Some (toIndex p)) s
       else setPrevSiblingIndex (Some (toIndex n)) (Some (toIndex p)) s).
Proof.
  intros Hs Hp HP HV HN HF Hn. apply toIndex_not_none in Hp.
  unfold unlink, setFirstChildIndex, setLastChildIndex,
    setPrevSiblingIndex, setNextSiblingIndex, setParentIndex, getParentIndex,
    getNextSiblingIndex, getPrevSiblingIndex, getFirstChildIndex, getLastChildIndex in *.
  cbv zeta. rewrite HP, HV, HN.
  rewrite (decide_False _ _ HF).
  rewrite (decide_False _ _ Hp). cbn [snd].
  destruct (decide (n = TreeNode_none)) as [->|Hnone].
  - rewrite (decide_True _ _ Hn).
    by rewrite (decide_False (P := Some (toIndex TreeNode_none) ≠ Some TreeNodeIndex_none))
      by (by intros []).
  - rewrite (decide_False _ _ Hn).
    by rewrite (decide_True _ _ (toIndex_not_none _ Hnone)).
Qed.

Lemma relink_after (node q p n : Z) (s : gmap (option Z) Z) :
  aligned s →
  p ≠ TreeNode_none →
  getParentIndex (Some (toIndex node)) s = Some (toIndex q) →
  getPrevSiblingIndex (Some (toIndex node)) s = Some (toIndex p) →
  getNextSiblingIndex (Some (toIndex node)) s = Some (toIndex n) →
  getNextSiblingIndex (Some (toIndex p)) s = Some (toIndex node) →
  getParentIndex (Some (toIndex p)) s = Some (toIndex q) →
  getFirstChildIndex (Some (toIndex q)) s ≠ Some (toIndex node) →
  getLastChildIndex (Some (toIndex q)) s ≠ Some (toIndex p) →
  (if decide (n = TreeNode_none)
   then getLastChildIndex (Some (toIndex q)) s = Some (toIndex node)
   else getPrevSiblingIndex (Some (toIndex n)) s = Some (toIndex node)
        ∧ getLastChildIndex (Some (toIndex q)) s ≠ Some (toIndex node)) →
  linkAfter (toIndex node) (toIndex p) (unlink (toIndex node) s).2 = s.
Proof.
  intros Hs Hp HP HV HN HPn HPp HF HLp Hn.
  rewrite (unlink_after node q p n) by (try done; case_decide; tauto).
  apply toIndex_not_none in Hp.
  unfold linkAfter, setFirstChildIndex, setLastChildIndex,
    setPrevSiblingIndex, setNextSiblingIndex, setParentIndex, getParentIndex,
    getNextSiblingIndex, getPrevSiblingIndex, getFirstChildIndex, getLastChildIndex in *.
  destruct (decide (n = TreeNode_none)) as [->|Hnone].
  - change (toIndex TreeNode_none) with TreeNodeIndex_none in *.
    set (u := setIndex nextSibling (Some (toIndex p)) (Some TreeNodeIndex_none)
                (setIndex lastChild (Some (toIndex q)) (Some (toIndex p)) s)).
    assert (aligned u) as Hu by (subst u; eauto 10 with tree).
    assert (getIndex parent (Some (toIndex p)) u = Some (toIndex q)) as HuP
      by (subst u; read_slots; done).
    assert (getIndex nextSibling (Some (toIndex p)) u = Some TreeNodeIndex_none) as HuN
      by (subst u; read_slots; done).
    assert (getIndex lastChild (Some (toIndex q)) u = Some (toIndex p)) as HuL
      by (subst u; read_slots; done).
    cbv zeta. rewrite HuP.
    rewrite (decide_True (P := getIndex lastChild _ _ = _))
      by (read_slots; done).
    read_slots. rewrite HuN.
    rewrite (decide_False (P := Some TreeNodeIndex_none ≠ Some TreeNodeIndex_none))
      by (by intros []).
    subst u. apply map_eq. intros k. rewrite !setIndex_lookup.
    unfold getIndex in *. simpl in *.
    repeat case_decide; simplify_eq; try done; try congruence.
  - destruct Hn as [HNp HL]. apply toIndex_not_none in Hnone.
    set (u := setIndex nextSibling (Some (toIndex p)) (Some (toIndex n))
                (setIndex prevSibling (Some (toIndex n)) (Some (toIndex p)) s)).
    assert (aligned u) as Hu by (subst u; eauto 10 with tree).
    assert (getIndex parent (Some (toIndex p)) u = Some (toIndex q)) as HuP
      by (subst u; read_slots; done).
    assert (getIndex nextSibling (Some (toIndex p)) u = Some (toIndex n)) as HuN
      by (subst u; read_slots; done).
    assert (getIndex lastChild (Some (toIndex q)) u ≠ Some (toIndex p)) as HuL
      by (subst u; read_slots; done).
    cbv zeta. rewrite HuP.
    rewrite (decide_False (P := getIndex lastChild _ _ = _))
      by (read_slots; done).
    read_slots. rewrite HuN.
    rewrite (decide_True _ _ Hnone).
    subst u. apply map_eq. intros k. rewrite !setIndex_lookup.
    unfold getIndex in *. simpl in *.
    repeat case_decide; simplify_eq; try done; try congruence.
Qed.

End TreeUndo.

(** X23. Moving a node to the place where it already is changes no link:
    when the links around the node agree with one another, [beforeNode(node)]
    is a location, and [moveNode(node, beforeNode(node))] leaves the array
    [shape] and the table of handles exactly as they were. *)
Theorem moveNode_to_own_place `{E : TreeShape.Environment}
    (node : Z) (t : TreeShape.Tree) :
  TreeShape.aligned (TreeShape.shape t) →
  TreeShape.linked node t →
  ∃ location,
    TreeShape.beforeNode node t = Some location
    ∧ TreeShape.shape (TreeShape.moveNode node location t) = TreeShape.shape t
    ∧ TreeShape.handles (TreeShape.moveNode node location t) = TreeShape.handles t.
Proof.
  intros Hs (q & p & n & HP & HV & HN & Hp & Hn).
  assert (∀ location, TreeShape.handles (TreeShape.moveNode node location t)
                      = TreeShape.handles t) as Hhandles.
  { intros location. unfold TreeShape.moveNode.
    by destruct (TreeShape.unlink (TreeShape.toIndex node) (TreeShape.shape t)). }
  unfold TreeShape.beforeNode. cbv zeta. rewrite HV, HP.
  pose proof (relink_first node q n _ Hs) as Hfirst.
  pose proof (relink_after node q p n _ Hs) as Hafter.
  unfold TreeShape.getParent, TreeShape.getPrevSibling, TreeShape.getNextSibling,
    TreeShape.getFirstChild, TreeShape.getLastChild in *.
  destruct (decide (n = TreeShape.TreeNode_none)) as [Hn_none|Hn_none];
    destruct (decide (p = TreeShape.TreeNode_none)) as [->|Hp_none];
    rewrite ?toNode_Some in *.
  - destruct Hp as [HF Hq]. rewrite decide_True by done.
    exists (- q). split_and!; [done| |done].
    rewrite shape_moveNode. cbv zeta. rewrite decide_False by lia.
    rewrite Z.opp_involutive. by apply Hfirst.
  - destruct Hp as (HPn & HPp & Hpos & HF & HLp).
    rewrite decide_False by (intros [= ?]; done).
    exists p. split_and!; [done| |done].
    rewrite shape_moveNode. cbv zeta. rewrite decide_True by lia.
    by apply Hafter.
  - destruct Hp as [HF Hq]. rewrite decide_True by done.
    exists (- q). split_and!; [done| |done].
    rewrite shape_moveNode. cbv zeta. rewrite decide_False by lia.
    rewrite Z.opp_involutive. by apply Hfirst.
  - destruct Hp as (HPn & HPp & Hpos & HF & HLp).
    rewrite decide_False by (intros [= ?]; done).
    exists p. split_and!; [done| |done].
    rewrite shape_moveNode. cbv zeta. rewrite decide_True by lia.
    by apply Hafter.
Qed.

Lemma moveNode_to_own_place_witness :
  ∃ location,
    TreeShape.beforeNode 2 TreeShape.family = Some location
    ∧ TreeShape.shape (TreeShape.moveNode 2 location TreeShape.family)
      = TreeShape.shape TreeShape.family
    ∧ TreeShape.handles (TreeShape.moveNode 2 location TreeShape.family)
      = TreeShape.handles TreeShape.family.
Proof.
  apply (moveNode_to_own_place (E := TreeShape.exampleEnvironment)).
  - apply family_aligned.
  - exists 0, 1, 0. vm_compute. repeat split; (reflexivity || discriminate || lia).
Defined.

(** X24. [moveNode(node, lastChildOf(parent))] appends the node to the
    children of the parent: afterwards the node is the last child of the
    parent, has the parent as its parent and has no next sibling.  The parent
    is not negative and the node is not [TreeNode.none]; a parent without a
    last child has no first child either; a last child [l] is a positive
    node other than the node, has the parent as its parent and no next
    sibling, and the node does not claim it as previous sibling. *)
Theorem moveNode_last_child `{E : TreeShape.Environment}
    (node parent_ l : Z) (t : TreeShape.Tree) :
  TreeShape.aligned (TreeShape.shape t) →
  0 ≤ parent_ →
  node ≠ TreeShape.TreeNode_none →
  TreeShape.getLastChild parent_ t = Some l →
  (if decide (l = TreeShape.TreeNode_none)
   then TreeShape.getFirstChild parent_ t = Some TreeShape.TreeNode_none
   else 0 < l ∧ l ≠ node
        ∧ TreeShape.getParent l t = Some parent_
        ∧ TreeShape.getNextSibling l t = Some TreeShape.TreeNode_none
        ∧ TreeShape.getPrevSibling node t ≠ Some l) →
  ∃ location,
    TreeShape.lastChildOf parent_ t = Some location
    ∧ TreeShape.getLastChild parent_ (TreeShape.moveNode node location t) = Some node
    ∧ TreeShape.getParent node (TreeShape.moveNode node location t) = Some parent_
    ∧ TreeShape.getNextSibling node (TreeShape.moveNode node location t)
      = Some TreeShape.TreeNode_none.
Proof.
  intros Hs Hparent Hnode Hl Hlast.
  pose proof (unlink_aligned (TreeShape.toIndex node) _ Hs) as Hs1.
  unfold TreeShape.lastChildOf. cbv zeta. rewrite Hl.
  unfold TreeShape.getFirstChild, TreeShape.getPrevSibling, TreeShape.getNextSibling,
    TreeShape.getLastChild, TreeShape.getParent in *.
  destruct (decide (l = TreeShape.TreeNode_none)) as [->|Hnone].
  - rewrite decide_True by done. exists (- parent_). split; [done|].
    apply toNode_Some in Hlast.
    rewrite shape_moveNode. cbv zeta. rewrite decide_False by lia.
    rewrite Z.opp_involutive.
    assert (TreeShape.getFirstChildIndex (Some (TreeShape.toIndex parent_))
              (TreeShape.unlink (TreeShape.toIndex node) (TreeShape.shape t)).2
            = Some (TreeShape.toIndex TreeShape.TreeNode_none)) as Hf1.
    { rewrite unlink_firstChild; eauto with tree.
      intros [_ Heq]. rewrite Hlast in Heq. injection Heq as Heq.
      by apply toIndex_inj in Heq. }
    destruct (linkFirstChild_links node parent_ _ Hs1) as (Hp & _ & _).
    destruct (linkFirstChild_pushes node parent_ TreeShape.TreeNode_none _ Hs1 Hf1)
      as (Hnext & _ & Hend); [done|].
    rewrite Hp, Hnext, Hend, !toNode_toIndex by done. done.
  - destruct Hlast as (Hpos & Hne & Hp & Hn & Hprev).
    rewrite decide_False by (intros [= ?]; done).
    exists l. split; [done|].
    apply toNode_Some in Hl, Hp, Hn. rewrite toNode_Some in Hprev.
    rewrite shape_moveNode. cbv zeta. rewrite decide_True by lia.
    assert (TreeShape.getNextSiblingIndex (Some (TreeShape.toIndex l))
              (TreeShape.unlink (TreeShape.toIndex node) (TreeShape.shape t)).2
            = Some (TreeShape.toIndex TreeShape.TreeNode_none)) as Hn1.
    { rewrite unlink_nextSibling; eauto with tree. }
    destruct (linkAfter_links node l _ Hs1) as (_ & _ & Hparent' & _).
    destruct (linkAfter_inserts node l TreeShape.TreeNode_none _ Hs1 Hn1)
      as (Hnext & _ & Hend); [done|done|].
    rewrite Hparent', Hnext, unlink_parent, Hp, !toNode_toIndex by eauto with tree.
    split_and!; [|done|done].
    rewrite (Hend parent_), toNode_toIndex; [done| |].
    + by rewrite unlink_parent by eauto with tree.
    + rewrite unlink_lastChild; eauto with tree.
      intros [_ Heq]. rewrite Hl in Heq. injection Heq as Heq.
      by apply toIndex_inj in Heq.
Qed.

Lemma moveNode_last_child_witness :
  ∃ location,
    TreeShape.lastChildOf 0 TreeShape.family = Some location
    ∧ TreeShape.getLastChild 0 (TreeShape.moveNode 3 location TreeShape.family) = Some 3
    ∧ TreeShape.getParent 3 (TreeShape.moveNode 3 location TreeShape.family) = Some 0
    ∧ TreeShape.getNextSibling 3 (TreeShape.moveNode 3 location TreeShape.family)
      = Some 0.
Proof.
  apply (moveNode_last_child (E := TreeShape.exampleEnvironment) 3 0 2).
  - apply family_aligned.
  - lia.
  - vm_compute. lia.
  - vm_compute. reflexivity.
  - vm_compute. repeat split; (reflexivity || discriminate || lia).
Defined.
